(** * An LRU cache over a map and a recency list (eviction.go)

    The Go program keeps a [map[string]*list.Element] next to a
    [container/list] list whose elements hold [*cacheItem] values.  The map
    and the list share the elements: the map stores pointers to the very
    elements that are linked in the list.  The embedding keeps that sharing:
    elements live in a store addressed by pointers, the map sends keys to
    pointers and the list is the sequence of pointers from front (most
    recently used) to back (least recently used).

    Every public method takes [c.lock] on entry and releases it on exit, so
    each method is one atomic step on the cache; the lock itself is not
    modelled. *)

From stdpp Require Import gmap strings list fin_maps pretty.
From Stdlib Require Import ZArith Lia.

Local Open Scope Z_scope.

(** ** Machine integers

    [int] is 64 bits wide on the platform the program is built for;
    [c.curr_size++] and [c.curr_size--] wrap around. *)

Definition min_int : Z := - 2 ^ 63.
Definition max_int : Z := 2 ^ 63 - 1.

Definition wrap (z : Z) : Z := (z + 2 ^ 63) mod 2 ^ 64 - 2 ^ 63.

Definition is_int (z : Z) : Prop := min_int <= z <= max_int.

(** ** container/list, seen as a sequence of element pointers *)

Definition ptr : Type := nat.

Module List_.

(** [l.Back()]: the last element, [nil] on an empty list. *)
Definition Back (l : list ptr) : option ptr := last l.

(** [l.MoveToFront(e)]: nothing happens when [e] is not an element of [l]
    or is already at the front. *)
Definition MoveToFront (e : ptr) (l : list ptr) : list ptr :=
  if decide (e ∈ l)
  then if decide (head l = Some e) then l
       else e :: filter (λ x, x ≠ e) l
  else l.

(** [l.Remove(e)]: unlinks [e] when it is an element of [l]. *)
Definition Remove (e : ptr) (l : list ptr) : list ptr :=
  if decide (e ∈ l) then filter (λ x, x ≠ e) l else l.

(** [l.Init()]: the empty list. *)
Definition Init : list ptr := [].

End List_.

Section LRU.

(** The payload type: a value of Go type [interface{}] is either [nil]
    or a dynamic value; [V] stands for the dynamic values. *)
Context {V : Type}.

Definition iface : Type := option V.
Definition nil : iface := None.

Record cacheItem : Type := mkItem { key : string; val : iface }.

(** The [Cache] struct.  [elems] is the part of the heap that holds the
    list elements (each with the [cacheItem] its [Value] points to): a
    pointer is an index into it, allocation appends, and nothing is ever
    freed. *)
Record Cache : Type := mkCache {
  max_size : Z;
  curr_size : Z;
  cache : gmap string ptr;
  lru : list ptr;
  elems : list cacheItem
}.

Definition set_curr_size (f : Z → Z) (c : Cache) : Cache :=
  mkCache (max_size c) (f (curr_size c)) (cache c) (lru c) (elems c).
Definition set_cache (f : gmap string ptr → gmap string ptr) (c : Cache) : Cache :=
  mkCache (max_size c) (curr_size c) (f (cache c)) (lru c) (elems c).
Definition set_lru (f : list ptr → list ptr) (c : Cache) : Cache :=
  mkCache (max_size c) (curr_size c) (cache c) (f (lru c)) (elems c).
Definition set_elems (f : list cacheItem → list cacheItem) (c : Cache) : Cache :=
  mkCache (max_size c) (curr_size c) (cache c) (lru c) (f (elems c)).

(** ** Methods run in a state monad with failure

    [None] is a run-time panic: the dereference of a pointer that does
    not address an element. *)
Definition M (A : Type) : Type := Cache → option (A * Cache).

#[global] Instance M_ret : MRet M := λ A a c, Some (a, c).
#[global] Instance M_bind : MBind M := λ A B f m c,
  match m c with
  | Some (a, c') => f a c'
  | None => None
  end.

Definition gets {A} (f : Cache → A) : M A := λ c, Some (f c, c).
Definition modify (f : Cache → Cache) : M unit := λ c, Some (tt, f c).
Definition panic {A} : M A := λ _, None.

(** The item behind [e.Value], asserted to be a [cacheItem] pointer. *)
Definition deref (e : ptr) : M cacheItem :=
  s ← gets elems;
  match s !! e with
  | Some kv => mret kv
  | None => panic
  end.

(** [c.lru.PushFront(&cacheItem{key, value})]: a new element is
    allocated and linked at the front; its pointer is returned. *)
Definition PushFront (kv : cacheItem) : M ptr :=
  s ← gets elems;
  let e := length s in
  modify (set_elems (λ s, s ++ [kv]));;
  modify (set_lru (cons e));;
  mret e.

(** [NewCache] *)
Definition NewCache (size : Z) : Cache :=
  mkCache size 0 ∅ List_.Init [].

(** [removeElement] *)
Definition removeElement (e : ptr) : M unit :=
  modify (set_lru (List_.Remove e));;
  kv ← deref e;
  modify (set_cache (delete (key kv)));;
  modify (set_curr_size (λ n, wrap (n - 1))).

(** [removeLRU] *)
Definition removeLRU : M unit :=
  n ← gets curr_size;
  if decide (n = 0) then mret tt
  else
    l ← gets lru;
    match List_.Back l with
    | Some ele => removeElement ele
    | None => mret tt
    end.

(** [Set] (written [Set_]: [Set] is reserved) *)
Definition Set_ (k : string) (value : iface) : M unit :=
  m ← gets cache;
  match m !! k with
  | Some ele =>
      modify (set_lru (List_.MoveToFront ele));;
      kv ← deref ele;
      modify (set_elems (<[ele := mkItem (key kv) value]>))
  | None =>
      n ← gets curr_size;
      mx ← gets max_size;
      (if decide (n >= mx) then removeLRU else mret tt);;
      ele ← PushFront (mkItem k value);
      modify (set_cache (<[k := ele]>));;
      modify (set_curr_size (λ n, wrap (n + 1)))
  end.

(** [Get] *)
Definition Get (k : string) : M (iface * bool) :=
  m ← gets cache;
  match m !! k with
  | Some ele =>
      modify (set_lru (List_.MoveToFront ele));;
      kv ← deref ele;
      mret (val kv, true)
  | None => mret (nil, false)
  end.

(** [Len] *)
Definition Len : M Z := gets curr_size.

(** [Clear] *)
Definition Clear : M unit :=
  modify (set_curr_size (λ _, 0));;
  modify (set_cache (λ _, ∅));;
  modify (set_lru (λ _, List_.Init)).

(** ** Sequences of calls on one cache *)

Inductive op : Type :=
| OSet (k : string) (value : iface)
| OGet (k : string)
| OLen
| OClear.

Definition step (o : op) : M unit :=
  match o with
  | OSet k value => Set_ k value
  | OGet k => Get k;; mret tt
  | OLen => Len;; mret tt
  | OClear => Clear
  end.

Fixpoint run (os : list op) : M unit :=
  match os with
  | [] => mret tt
  | o :: os' => step o;; run os'
  end.

(** The cache after the calls [os], when none of them panics. *)
Definition exec (os : list op) (c : Cache) : option Cache :=
  snd <$> run os c.

Definition sets (kvs : list (string * iface)) : list op :=
  (λ kv, OSet kv.1 kv.2) <$> kvs.

(** The keys held by the elements of the recency list, front to back. *)
Definition keys_of (c : Cache) : list string :=
  omap (λ e, key <$> elems c !! e) (lru c).

(** ** The representation invariant *)

Record inv (c : Cache) : Prop := mkInv {
  inv_cap : is_int (max_size c);
  inv_nodup : NoDup (lru c);
  inv_alloc : ∀ e, e ∈ lru c → is_Some (elems c !! e);
  inv_index : ∀ k e,
    cache c !! k = Some e ↔ e ∈ lru c ∧ key <$> elems c !! e = Some k;
  inv_card : size (cache c) = length (lru c);
  inv_size : curr_size c = Z.of_nat (length (lru c));
  inv_bound : curr_size c <= Z.max (max_size c) 1
}.

(** What the claims call the index being a bijection onto the entries of
    the recency list. *)
Definition index_bijection (c : Cache) : Prop :=
  NoDup (lru c) ∧
  (∀ k e, cache c !! k = Some e ↔
          e ∈ lru c ∧ key <$> elems c !! e = Some k) ∧
  (∀ e, e ∈ lru c → ∃ kv, elems c !! e = Some kv ∧ cache c !! key kv = Some e) ∧
  dom (cache c) = list_to_set (keys_of c) ∧
  Z.of_nat (size (cache c)) = curr_size c ∧
  Z.of_nat (length (lru c)) = curr_size c.

(** ** States named in the statements below *)

(** The state a new key is inserted into: a fresh element at the front. *)
Definition pushed (k : string) (v : iface) (c : Cache) : Cache :=
  mkCache (max_size c) (wrap (curr_size c + 1))
    (<[k := length (elems c)]> (cache c))
    (length (elems c) :: lru c)
    (elems c ++ [mkItem k v]).

(** The state left by [removeLRU] on a cache whose back element is [b]
    and holds the key [kb]. *)
Definition evicted (kb : string) (l : list ptr) (c : Cache) : Cache :=
  mkCache (max_size c) (wrap (curr_size c - 1))
    (delete kb (cache c)) l (elems c).

(** ** Calls with their results *)

(** The entries of the cache in recency order, front to back: what the
    elements of the list hold. *)
Definition entries (c : Cache) : list cacheItem :=
  omap (λ e, elems c !! e) (lru c).

(** What a call hands back to its caller. *)
Inductive result : Type :=
| RUnit
| RGet (value : iface) (found : bool)
| RLen (n : Z).

Definition call (o : op) : M result :=
  match o with
  | OSet k value => Set_ k value;; mret RUnit
  | OGet k => r ← Get k; mret (RGet r.1 r.2)
  | OLen => n ← Len; mret (RLen n)
  | OClear => Clear;; mret RUnit
  end.

Fixpoint calls (os : list op) : M (list result) :=
  match os with
  | [] => mret []
  | o :: os' => r ← call o; rs ← calls os'; mret (r :: rs)
  end.

(** ** A reference LRU on plain lists

    Not part of the program: the behaviour the cache is compared with.
    The state is the list of entries, most recently used first. *)

Definition ref_find (k : string) (es : list cacheItem) : option cacheItem :=
  head (filter (λ it, key it = k) es).

Definition ref_call (cap : Z) (o : op) (es : list cacheItem)
  : result * list cacheItem :=
  match o with
  | OSet k value =>
      (RUnit,
       match ref_find k es with
       | Some _ => mkItem k value :: filter (λ it, key it ≠ k) es
       | None =>
           mkItem k value ::
             (if decide (Z.of_nat (length es) >= cap) then removelast es
              else es)
       end)
  | OGet k =>
      match ref_find k es with
      | Some it => (RGet (val it) true, it :: filter (λ it', key it' ≠ k) es)
      | None => (RGet nil false, es)
      end
  | OLen => (RLen (Z.of_nat (length es)), es)
  | OClear => (RUnit, [])
  end.

Fixpoint ref_calls (cap : Z) (os : list op) (es : list cacheItem)
  : list result * list cacheItem :=
  match os with
  | [] => ([], es)
  | o :: os' =>
      let '(r, es1) := ref_call cap o es in
      let '(rs, es2) := ref_calls cap os' es1 in
      (r :: rs, es2)
  end.

(** The entry a [Set(k, v)] call stores. *)
Definition item_of (kv : string * iface) : cacheItem := mkItem kv.1 kv.2.

(** The value most recently given to [k] by the calls [os], when [acc] is
    the one before them: [Set(k, v)] gives [v], [Clear] gives none. *)
Fixpoint written (k : string) (os : list op) (acc : option iface)
  : option iface :=
  match os with
  | [] => acc
  | OSet k' value :: os' =>
      written k os' (if decide (k' = k) then Some value else acc)
  | OClear :: os' => written k os' None
  | _ :: os' => written k os' acc
  end.

End LRU.

Arguments cacheItem : clear implicits.
Arguments Cache : clear implicits.
Arguments iface : clear implicits.

Arguments op : clear implicits.
Arguments result : clear implicits.

(** Concrete states, used to run the methods on.  [demo_full] is the
    cache of capacity 2 after [Set(a,1); Set(b,2)]; [demo_one_over] is the
    cache of capacity 0 after [Set(a,1)]; [demo_negative] is the cache of
    capacity -3 after [Set(a,1); Get(a); Len(); Set(b,2)]. *)
Definition one : iface Z := Some 1.
Definition two : iface Z := Some 2.

Definition demo_full : Cache Z :=
  mkCache 2 2 (<["b" := 1%nat]> (<["a" := 0%nat]> ∅)) [1%nat; 0%nat]
    [mkItem "a" one; mkItem "b" two].

Definition demo_one_over : Cache Z :=
  mkCache 0 1 {["a" := 0%nat]} [0%nat] [mkItem "a" one].

Definition demo_negative : Cache Z :=
  mkCache (-3) 1 {["b" := 1%nat]} [1%nat]
    [mkItem "a" one; mkItem "b" two].

(** ** The program's [main]

    The values [main] stores are strings and ints.  [fmt.Printf] and
    [fmt.Println] write to standard output; every call in [main] writes
    one line, and the output is modelled as the list of lines written,
    without their final newline. *)

Inductive dyn : Type :=
| DString (s : string)
| DInt (n : Z).

(** The verb [%v] on a value of type [interface{}]. *)
Definition format_v (x : iface dyn) : string :=
  match x with
  | None => "<nil>"
  | Some (DString s) => s
  | Some (DInt n) => pretty n
  end.

(** The verb [%d] on an [int]. *)
Definition format_d (n : Z) : string := pretty n.

Definition main : option (list string) :=
  fst <$>
    (Set_ "name" (Some (DString "John"));;
     Set_ "age" (Some (DInt 30));;
     Set_ "city" (Some (DString "New York"));;
     '(value, ok) ← Get "age";
     let out1 := if ok : bool then ["Age: " +:+ format_v value]
                 else ["Age not found"] in
     Set_ "country" (Some (DString "USA"));;
     '(_, ok') ← Get "name";
     let out2 := if negb ok' then ["Name was evicted"] else [] in
     n ← Len;
     let out3 := ["Cache size: " +:+ format_d n] in
     Clear;;
     n' ← Len;
     let out4 := ["Cache size after clear: " +:+ format_d n'] in
     mret (out1 ++ out2 ++ out3 ++ out4)) (NewCache 3).

(** ** Arithmetic of the size counter *)

Lemma wrap_id z : is_int z → wrap z = z.
Proof.
  unfold is_int, wrap, min_int, max_int. intros H.
  rewrite Z.mod_small; lia.
Qed.

(** ** Facts about the list operations *)

Section ListFacts.

Implicit Types (l : list ptr) (e : ptr).

Lemma filter_ne_notin l e : e ∉ l → filter (λ x, x ≠ e) l = l.
Proof.
  induction l as [|x l IH]; [done|].
  rewrite not_elem_of_cons. intros [Hne Hnin].
  rewrite filter_cons_True by done. by rewrite IH.
Qed.

Lemma filter_ne_last l e : e ∉ l → filter (λ x, x ≠ e) (l ++ [e]) = l.
Proof.
  intros Hnin. rewrite filter_app, filter_ne_notin by done.
  rewrite filter_cons_False by (intros H; by apply H).
  by rewrite filter_nil, app_nil_r.
Qed.

Lemma length_filter_ne l e :
  NoDup l → e ∈ l → S (length (filter (λ x, x ≠ e) l)) = length l.
Proof.
  induction 1 as [|x l Hx Hnd IH]; [by rewrite elem_of_nil|].
  rewrite elem_of_cons. intros [->|Hin].
  - rewrite filter_cons_False by (intros H; by apply H).
    by rewrite filter_ne_notin.
  - rewrite filter_cons_True by (intros ->; done).
    simpl. by rewrite IH.
Qed.

Lemma MoveToFront_in l e :
  NoDup l → e ∈ l → List_.MoveToFront e l = e :: filter (λ x, x ≠ e) l.
Proof.
  intros Hnd Hin. unfold List_.MoveToFront.
  rewrite decide_True by done. case_decide as Hhd; [|done].
  destruct l as [|x l]; [done|]. simpl in Hhd. simplify_eq.
  apply NoDup_cons in Hnd as [Hx _].
  rewrite filter_cons_False by (intros H; by apply H).
  by rewrite filter_ne_notin.
Qed.

Lemma MoveToFront_elem l e x : x ∈ List_.MoveToFront e l ↔ x ∈ l.
Proof.
  unfold List_.MoveToFront.
  destruct (decide (e ∈ l)); [|done].
  destruct (decide (head l = Some e)); [done|].
  rewrite elem_of_cons, list_elem_of_filter.
  destruct (decide (x = e)) as [->|]; intuition congruence.
Qed.

Lemma MoveToFront_NoDup l e : NoDup l → NoDup (List_.MoveToFront e l).
Proof.
  intros Hnd. unfold List_.MoveToFront.
  destruct (decide (e ∈ l)); [|done].
  destruct (decide (head l = Some e)); [done|].
  apply NoDup_cons. split; [|by apply NoDup_filter].
  rewrite list_elem_of_filter. intros [Hne _]. by apply Hne.
Qed.

Lemma MoveToFront_perm l e : NoDup l → List_.MoveToFront e l ≡ₚ l.
Proof.
  intros Hnd. apply NoDup_Permutation; [by apply MoveToFront_NoDup|done|].
  intros x. apply MoveToFront_elem.
Qed.

Lemma Remove_filter l e : List_.Remove e l = filter (λ x, x ≠ e) l.
Proof.
  unfold List_.Remove. case_decide; [done|]. by rewrite filter_ne_notin.
Qed.

Lemma Back_snoc l e : List_.Back (l ++ [e]) = Some e.
Proof. apply last_snoc. Qed.

Lemma Back_Some l e : List_.Back l = Some e → ∃ l', l = l' ++ [e].
Proof.
  unfold List_.Back. intros H.
  destruct l as [|x l _] using rev_ind; [done|].
  rewrite last_snoc in H. simplify_eq. by exists l.
Qed.

End ListFacts.

(** ** What each method does, case by case *)

Section Specs.

Context {V : Type}.
Implicit Types (c : Cache V) (k : string) (v : iface V) (e : ptr).

Lemma Set_present c k v e kv :
  cache c !! k = Some e → elems c !! e = Some kv →
  Set_ k v c =
    Some (tt, mkCache (max_size c) (curr_size c) (cache c)
                (List_.MoveToFront e (lru c))
                (<[e := mkItem (key kv) v]> (elems c))).
Proof.
  destruct c as [mx n m l s]; simpl. intros Hk He.
  unfold Set_, mbind, M_bind, gets; simpl. rewrite Hk; simpl.
  unfold deref, mbind, M_bind, gets; simpl. by rewrite He.
Qed.

Lemma Set_absent_room c k v :
  cache c !! k = None → ¬ curr_size c >= max_size c →
  Set_ k v c =
    Some (tt, mkCache (max_size c) (wrap (curr_size c + 1))
                (<[k := length (elems c)]> (cache c))
                (length (elems c) :: lru c)
                (elems c ++ [mkItem k v])).
Proof.
  destruct c as [mx n m l s]; simpl. intros Hk Hlt.
  unfold Set_, mbind, M_bind, gets; simpl. rewrite Hk; simpl.
  by rewrite decide_False by done.
Qed.

Lemma removeLRU_empty c : curr_size c = 0 → removeLRU c = Some (tt, c).
Proof.
  intros Hz. unfold removeLRU, mbind, M_bind, gets; simpl.
  by rewrite decide_True by done.
Qed.

Lemma removeLRU_back c l b kv :
  curr_size c ≠ 0 → lru c = l ++ [b] → elems c !! b = Some kv →
  removeLRU c =
    Some (tt, mkCache (max_size c) (wrap (curr_size c - 1))
                (delete (key kv) (cache c))
                (List_.Remove b (lru c)) (elems c)).
Proof.
  destruct c as [mx n m l0 s]; simpl. intros Hnz -> Hb.
  unfold removeLRU, mbind, M_bind, gets; simpl.
  rewrite decide_False by done. simpl. rewrite Back_snoc.
  unfold removeElement, deref, mbind, M_bind, gets, modify; simpl.
  by rewrite Hb.
Qed.

Lemma Set_absent_full c k v c1 :
  cache c !! k = None → curr_size c >= max_size c →
  removeLRU c = Some (tt, c1) →
  Set_ k v c =
    Some (tt, mkCache (max_size c1) (wrap (curr_size c1 + 1))
                (<[k := length (elems c1)]> (cache c1))
                (length (elems c1) :: lru c1)
                (elems c1 ++ [mkItem k v])).
Proof.
  destruct c as [mx n m l s]; simpl. intros Hk Hge Hrm.
  unfold Set_, mbind, M_bind, gets; simpl. rewrite Hk; simpl.
  rewrite decide_True by done. rewrite Hrm. by destruct c1.
Qed.

Lemma Get_present c k e kv :
  cache c !! k = Some e → elems c !! e = Some kv →
  Get k c = Some ((val kv, true), set_lru (List_.MoveToFront e) c).
Proof.
  destruct c as [mx n m l s]; simpl. intros Hk He.
  unfold Get, mbind, M_bind, gets; simpl. rewrite Hk; simpl.
  unfold deref, mbind, M_bind, gets; simpl. by rewrite He.
Qed.

Lemma Get_absent c k :
  cache c !! k = None → Get k c = Some ((nil, false), c).
Proof.
  intros Hk. unfold Get, mbind, M_bind, gets; simpl. by rewrite Hk.
Qed.

Lemma Clear_spec c :
  Clear c = Some (tt, mkCache (max_size c) 0 ∅ [] (elems c)).
Proof. done. Qed.

End Specs.

(** ** The invariant is established by [NewCache] and kept by every method *)

Section Invariant.

Context {V : Type}.
Implicit Types (c : Cache V) (k : string) (v : iface V) (e : ptr).

Lemma inv_NewCache (n : Z) : is_int n → inv (NewCache (V:=V) n).
Proof.
  intros Hn. split; simpl; try done.
  - apply NoDup_nil_2.
  - intros e He. by apply elem_of_nil in He.
  - intros k e. rewrite lookup_empty, elem_of_nil. split; [done|by intros []].
  - lia.
Qed.

Lemma inv_size_nonneg c : inv c → 0 <= curr_size c <= max_int.
Proof.
  intros Hc. pose proof (inv_size c Hc). pose proof (inv_bound c Hc).
  pose proof (inv_cap c Hc) as Hcap. unfold is_int, max_int, min_int in *.
  lia.
Qed.

Lemma inv_key c k e :
  inv c → cache c !! k = Some e →
  e ∈ lru c ∧ ∃ kv, elems c !! e = Some kv ∧ key kv = k.
Proof.
  intros Hc Hk. apply (inv_index c Hc) in Hk as [Hin Hkey].
  split; [done|]. destruct (elems c !! e) as [kv|]; [|done].
  exists kv. simpl in Hkey. by simplify_eq.
Qed.

Lemma inv_fresh c : inv c → length (elems c) ∉ lru c.
Proof.
  intros Hc Hin. apply (inv_alloc c Hc), lookup_lt_is_Some in Hin. lia.
Qed.

Lemma inv_MoveToFront c e : inv c → inv (set_lru (List_.MoveToFront e) c).
Proof.
  intros Hc. destruct Hc as [Hcap Hnd Hal Hix Hcard Hsz Hbd].
  split; simpl; try done.
  - by apply MoveToFront_NoDup.
  - intros e'. rewrite MoveToFront_elem. apply Hal.
  - intros k e'. rewrite MoveToFront_elem. apply Hix.
  - by rewrite (Permutation_length (MoveToFront_perm _ e Hnd)).
  - by rewrite (Permutation_length (MoveToFront_perm _ e Hnd)).
Qed.

Lemma inv_store c e kv v :
  inv c → elems c !! e = Some kv →
  inv (set_elems (<[e := mkItem (key kv) v]>) c).
Proof.
  intros Hc He. destruct Hc as [Hcap Hnd Hal Hix Hcard Hsz Hbd].
  assert (Hkey : ∀ e', key <$> <[e := mkItem (key kv) v]> (elems c) !! e'
                       = key <$> elems c !! e').
  { intros e'. destruct (decide (e = e')) as [<-|Hne].
    - rewrite list_lookup_insert_eq by (by eapply lookup_lt_Some).
      by rewrite He.
    - by rewrite list_lookup_insert_ne. }
  split; simpl; try done.
  - intros e' Hin. apply list_lookup_insert_is_Some. by apply Hal.
  - intros k e'. rewrite Hkey. apply Hix.
Qed.

Lemma inv_pushed c k v :
  inv c → cache c !! k = None →
  curr_size c + 1 <= Z.max (max_size c) 1 →
  inv (pushed k v c) ∧ curr_size (pushed k v c) = curr_size c + 1.
Proof.
  intros Hc Hk Hroom. pose proof (inv_fresh c Hc) as Hfresh.
  pose proof (inv_size_nonneg c Hc) as Hnn.
  destruct Hc as [Hcap Hnd Hal Hix Hcard Hsz Hbd].
  assert (Hw : wrap (curr_size c + 1) = curr_size c + 1).
  { apply wrap_id. unfold is_int, min_int, max_int in *. lia. }
  split; [|done]. split; simpl; try done.
  - by apply NoDup_cons.
  - intros e. rewrite elem_of_cons. intros [->|Hin].
    + rewrite list_lookup_middle by done. by eexists.
    + destruct (Hal e Hin) as [kv Hkv]. exists kv.
      by apply lookup_app_l_Some.
  - intros k' e. rewrite elem_of_cons. split.
    + intros Hlk. destruct (decide (k = k')) as [<-|Hne].
      * rewrite lookup_insert_eq in Hlk. simplify_eq.
        split; [by left|]. by rewrite list_lookup_middle.
      * rewrite lookup_insert_ne in Hlk by done.
        apply Hix in Hlk as [Hin Hkey]. split; [by right|].
        destruct (Hal e Hin) as [kv Hkv].
        rewrite (lookup_app_l_Some _ _ _ _ Hkv). by rewrite Hkv in Hkey.
    + intros [[->|Hin] Hkey].
      * rewrite list_lookup_middle in Hkey by done. simpl in Hkey.
        simplify_eq. by rewrite lookup_insert_eq.
      * destruct (Hal e Hin) as [kv Hkv].
        rewrite (lookup_app_l_Some _ _ _ _ Hkv) in Hkey.
        assert (cache c !! k' = Some e) as Hlk.
        { apply Hix. split; [done|]. by rewrite Hkv. }
        rewrite lookup_insert_ne; [done|]. intros ->. congruence.
  - rewrite map_size_insert_None by done. by rewrite Hcard.
  - rewrite Hw, Hsz. lia.
  - rewrite Hw. lia.
Qed.

(** Unlinking the back element [b] of a non-empty cache. *)
Lemma inv_removeLRU_back c l b :
  inv c → lru c = l ++ [b] →
  ∃ kv, elems c !! b = Some kv ∧ cache c !! key kv = Some b ∧
    let c1 := mkCache (max_size c) (wrap (curr_size c - 1))
                (delete (key kv) (cache c)) l (elems c) in
    removeLRU c = Some (tt, c1) ∧ inv c1 ∧
    curr_size c1 = curr_size c - 1.
Proof.
  intros Hc Hl. pose proof (inv_size_nonneg c Hc) as Hnn.
  pose proof Hc as [Hcap Hnd Hal Hix Hcard Hsz Hbd].
  assert (b ∈ lru c) as Hb.
  { rewrite Hl, elem_of_app. right. by left. }
  destruct (Hal b Hb) as [kv Hkv]. exists kv.
  assert (cache c !! key kv = Some b) as Hlk.
  { apply Hix. split; [done|]. by rewrite Hkv. }
  assert (curr_size c ≠ 0) as Hnz.
  { rewrite Hsz, Hl, length_app. simpl. lia. }
  assert (b ∉ l) as Hbl.
  { rewrite Hl in Hnd. apply NoDup_app in Hnd as (_ & Hd & _).
    intros Hin. apply (Hd b Hin). by left. }
  assert (Hw : wrap (curr_size c - 1) = curr_size c - 1).
  { apply wrap_id. unfold is_int, min_int, max_int in *. lia. }
  split; [done|]. split; [done|]. simpl.
  split; [|split; [|done]].
  - rewrite (removeLRU_back c l b kv) by done.
    by rewrite Hl, Remove_filter, filter_ne_last.
  - rewrite Hl in *. split; simpl; try done.
    + by apply NoDup_app in Hnd as (? & _ & _).
    + intros e Hin. apply Hal, elem_of_app. by left.
    + intros k e. split.
      * intros Hd. apply lookup_delete_Some in Hd as [Hne Hd].
        apply Hix in Hd as [Hin Hkey]. split; [|done].
        apply elem_of_app in Hin as [Hin|Hin]; [done|].
        apply list_elem_of_singleton in Hin as ->.
        rewrite Hkv in Hkey. simpl in Hkey. congruence.
      * intros [Hin Hkey].
        assert (cache c !! k = Some e) as Hlk'.
        { apply Hix. split; [|done]. apply elem_of_app. by left. }
        apply lookup_delete_Some. split; [|done].
        intros <-. congruence.
    + rewrite map_size_delete_Some by done. rewrite Hcard, length_app.
      simpl. lia.
    + rewrite Hw, Hsz, length_app. simpl. lia.
    + rewrite Hw. lia.
Qed.

(** [Set] of a key that is not in the index, without eviction: there is
    room, or the cache is empty. *)
Lemma Set_absent_push c k v :
  inv c → cache c !! k = None →
  curr_size c < max_size c ∨ curr_size c = 0 →
  Set_ k v c = Some (tt, pushed k v c) ∧ inv (pushed k v c) ∧
  curr_size (pushed k v c) = curr_size c + 1.
Proof.
  intros Hc Hk Hcase. pose proof (inv_size_nonneg c Hc) as Hnn.
  assert (curr_size c + 1 <= Z.max (max_size c) 1) as Hroom by lia.
  split; [|by apply inv_pushed].
  destruct (decide (curr_size c >= max_size c)) as [Hge|Hlt].
  - assert (curr_size c = 0) as Hz by lia.
    by rewrite (Set_absent_full c k v c) by auto using removeLRU_empty.
  - by rewrite Set_absent_room.
Qed.

(** [Set] of a key that is not in the index, on a non-empty cache that is
    at (or over) its capacity: the back element goes first. *)
Lemma Set_absent_evict c k v :
  inv c → cache c !! k = None →
  curr_size c >= max_size c → curr_size c ≠ 0 →
  ∃ l b kv, lru c = l ++ [b] ∧ elems c !! b = Some kv ∧
    cache c !! key kv = Some b ∧
    let c' := pushed k v (evicted (key kv) l c) in
    Set_ k v c = Some (tt, c') ∧ inv c' ∧ curr_size c' = curr_size c.
Proof.
  intros Hc Hk Hge Hnz.
  assert (∃ l b, lru c = l ++ [b]) as (l & b & Hl).
  { destruct (lru c) as [|x l0 _] eqn:El using rev_ind; [|by eauto].
    pose proof (inv_size c Hc) as Hsz. rewrite El in Hsz. done. }
  destruct (inv_removeLRU_back c l b Hc Hl)
    as (kv & Hkv & Hlk & Hrm & Hc1 & Hsz1).
  exists l, b, kv. split; [done|]. split; [done|]. split; [done|].
  fold (evicted (key kv) l c) in Hrm, Hc1, Hsz1. cbv zeta.
  pose proof (inv_bound c Hc) as Hbd.
  destruct (inv_pushed (evicted (key kv) l c) k v) as [Hinv Hsz]; [done|..].
  - simpl. rewrite lookup_delete_None. by right.
  - rewrite Hsz1. simpl. lia.
  - split; [|split; [done|]].
    + by rewrite (Set_absent_full c k v _ Hk Hge Hrm).
    + rewrite Hsz, Hsz1. lia.
Qed.

Lemma Set_present_inv c k v e :
  inv c → cache c !! k = Some e →
  ∃ kv, elems c !! e = Some kv ∧ key kv = k ∧
    let c' := mkCache (max_size c) (curr_size c) (cache c)
                (e :: filter (λ x, x ≠ e) (lru c))
                (<[e := mkItem k v]> (elems c)) in
    Set_ k v c = Some (tt, c') ∧ inv c'.
Proof.
  intros Hc Hk. destruct (inv_key c k e Hc Hk) as (Hin & kv & Hkv & <-).
  exists kv. split; [done|]. split; [done|]. simpl.
  rewrite (Set_present c _ v e kv Hk Hkv).
  rewrite MoveToFront_in by (done || apply (inv_nodup c Hc)).
  split; [done|].
  pose proof (inv_store _ e kv v (inv_MoveToFront c e Hc) Hkv) as Hc'.
  unfold set_elems, set_lru in Hc'. simpl in Hc'.
  by rewrite MoveToFront_in in Hc' by (done || apply (inv_nodup c Hc)).
Qed.

Lemma Get_present_inv c k e :
  inv c → cache c !! k = Some e →
  ∃ kv, elems c !! e = Some kv ∧ key kv = k ∧
    let c' := mkCache (max_size c) (curr_size c) (cache c)
                (e :: filter (λ x, x ≠ e) (lru c)) (elems c) in
    Get k c = Some ((val kv, true), c') ∧ inv c'.
Proof.
  intros Hc Hk. destruct (inv_key c k e Hc Hk) as (Hin & kv & Hkv & <-).
  exists kv. split; [done|]. split; [done|]. simpl.
  rewrite (Get_present c _ e kv Hk Hkv).
  pose proof (inv_MoveToFront c e Hc) as Hc'. unfold set_lru in *.
  rewrite MoveToFront_in in * by (done || apply (inv_nodup c Hc)).
  done.
Qed.

Lemma inv_Clear c : inv c → inv (mkCache (max_size c) 0 ∅ [] (elems c)).
Proof.
  intros Hc. split; simpl; try done.
  - apply (inv_cap c Hc).
  - apply NoDup_nil_2.
  - intros e He. by apply elem_of_nil in He.
  - intros k e. rewrite lookup_empty, elem_of_nil. split; [done|by intros []].
  - lia.
Qed.

(** No call panics on a state that satisfies the invariant, and the
    invariant and the capacity are kept. *)
Lemma Set_inv c k v :
  inv c → ∃ c', Set_ k v c = Some (tt, c') ∧ inv c' ∧
                max_size c' = max_size c.
Proof.
  intros Hc. destruct (cache c !! k) as [e|] eqn:Hk.
  - destruct (Set_present_inv c k v e Hc Hk) as (kv & _ & _ & Hs & Hi).
    eauto.
  - destruct (decide (curr_size c < max_size c ∨ curr_size c = 0))
      as [Hcase|Hcase].
    + destruct (Set_absent_push c k v Hc Hk Hcase) as (Hs & Hi & _).
      eauto.
    + destruct (Set_absent_evict c k v Hc Hk) as (l & b & kv & _ & _ & _ & Hs & Hi & _);
        [lia..|]. eauto.
Qed.

Lemma Get_inv c k :
  inv c → ∃ r c', Get k c = Some (r, c') ∧ inv c' ∧
                  max_size c' = max_size c ∧ curr_size c' = curr_size c.
Proof.
  intros Hc. destruct (cache c !! k) as [e|] eqn:Hk.
  - destruct (Get_present_inv c k e Hc Hk) as (kv & _ & _ & Hs & Hi).
    eauto 10.
  - rewrite Get_absent by done. eauto 10.
Qed.

Lemma step_inv c o :
  inv c → ∃ c', step o c = Some (tt, c') ∧ inv c' ∧
                max_size c' = max_size c.
Proof.
  intros Hc. destruct o as [k v|k| |]; simpl.
  - by apply Set_inv.
  - destruct (Get_inv c k Hc) as (r & c' & Hg & Hi & Hm & _).
    exists c'. unfold mbind, M_bind. by rewrite Hg.
  - by exists c.
  - eexists. split; [apply Clear_spec|]. split; [by apply inv_Clear|done].
Qed.

Lemma exec_cons o os c c1 :
  step o c = Some (tt, c1) → exec (o :: os) c = exec os c1.
Proof.
  intros Hs. unfold exec. simpl. unfold mbind, M_bind. by rewrite Hs.
Qed.

Lemma exec_inv os : ∀ c,
  inv c → ∃ c', exec os c = Some c' ∧ inv c' ∧ max_size c' = max_size c.
Proof.
  induction os as [|o os IH]; intros c Hc.
  - by exists c.
  - destruct (step_inv c o Hc) as (c1 & Hs & Hc1 & Hm1).
    destruct (IH c1 Hc1) as (c' & He & Hc' & Hm').
    exists c'. rewrite (exec_cons _ _ _ _ Hs). split; [done|].
    split; [done|congruence].
Qed.

(** Every state reached from a new cache satisfies the invariant. *)
Lemma reach_inv (n : Z) os c :
  is_int n → exec os (NewCache n) = Some c → inv c ∧ max_size c = n.
Proof.
  intros Hn He.
  destruct (exec_inv os (NewCache n) (inv_NewCache n Hn))
    as (c' & He' & Hc' & Hm).
  rewrite He in He'. by simplify_eq.
Qed.

End Invariant.

(** ** The properties of the cache *)

Section Properties.

Context {V : Type}.
Implicit Types (c : Cache V) (k : string) (v : iface V) (e : ptr).
Implicit Types (os : list (op V)) (o : op V).

Lemma inv_bijection c : inv c → index_bijection c.
Proof.
  intros Hc. pose proof Hc as [Hcap Hnd Hal Hix Hcard Hsz Hbd].
  split; [done|]. split; [done|]. split; [|split; [|split]].
  - intros e Hin. destruct (Hal e Hin) as [kv Hkv]. exists kv.
    split; [done|]. apply Hix. split; [done|]. by rewrite Hkv.
  - apply set_eq. intros k.
    rewrite elem_of_dom, elem_of_list_to_set. unfold keys_of.
    rewrite list_elem_of_omap. split.
    + intros [e He]. exists e. by apply Hix.
    + intros (e & Hin & Hkey). exists e. by apply Hix.
  - rewrite Hcard. lia.
  - lia.
Qed.

(** C1 (amended): for every capacity that is at least 1, after every
    call of every sequence of [Set] calls on a new cache, [Len()] is at
    most the capacity. *)
Theorem Len_le_capacity (n : Z) (kvs : list (string * iface V)) (i : nat) :
  1 <= n <= max_int →
  ∃ c len, exec (sets (take i kvs)) (NewCache n) = Some c ∧
           Len c = Some (len, c) ∧ len <= n.
Proof.
  intros Hn.
  assert (is_int n) as Hint by (unfold is_int, min_int, max_int in *; lia).
  destruct (exec_inv (sets (take i kvs)) (NewCache n) (inv_NewCache n Hint))
    as (c & He & Hc & Hm).
  exists c, (curr_size c). split; [done|]. split; [done|].
  pose proof (inv_bound c Hc). simpl in Hm. lia.
Qed.

(** On a cache whose capacity is zero or negative, [Set] leaves one
    element, in the list and in the index: the one of the key just set. *)
Lemma Set_nonpositive c k v :
  inv c → max_size c <= 0 →
  ∃ c' e, Set_ k v c = Some (tt, c') ∧ curr_size c' = 1 ∧
    lru c' = [e] ∧ cache c' = {[k := e]} ∧
    elems c' !! e = Some (mkItem k v).
Proof.
  intros Hc Hm.
  pose proof (inv_bound c Hc) as Hbd.
  pose proof (inv_size_nonneg c Hc) as Hnn.
  pose proof (inv_size c Hc) as Hsz.
  pose proof (inv_card c Hc) as Hcard.
  destruct (cache c !! k) as [e|] eqn:Hk.
  - destruct (Set_present_inv c k v e Hc Hk) as (kv & Hkv & _ & Hs & _).
    destruct (inv_key c k e Hc Hk) as [Hin _].
    assert (lru c = [e]) as Hl.
    { destruct (lru c) as [|x [|y l]]; simpl in Hsz.
      - by apply elem_of_nil in Hin.
      - by apply list_elem_of_singleton in Hin as ->.
      - lia. }
    assert (cache c = {[k := e]}) as Hca.
    { rewrite <- (insert_delete_id (cache c) k e Hk).
      assert (delete k (cache c) = ∅) as ->; [|by rewrite insert_empty].
      apply map_size_empty_inv.
      rewrite map_size_delete_Some by done. rewrite Hcard, Hl. done. }
    eexists _, e. split; [exact Hs|]. simpl. rewrite Hl in *. simpl in Hsz.
    split; [lia|]. split.
    { rewrite filter_cons_False by (intros H; by apply H). done. }
    split; [done|].
    apply list_lookup_insert_eq. by eapply lookup_lt_Some.
  - destruct (decide (curr_size c = 0)) as [Hz|Hnz].
    + destruct (Set_absent_push c k v Hc Hk) as (Hs & _ & Hsz'); [by right|].
      exists (pushed k v c), (length (elems c)). split; [exact Hs|].
      split; [lia|]. simpl.
      assert (cache c = ∅) as -> by (apply map_size_empty_inv; lia).
      assert (lru c = []) as -> by (apply length_zero_iff_nil; lia).
      by rewrite insert_empty, list_lookup_middle.
    + destruct (Set_absent_evict c k v Hc Hk)
        as (l & b & kv & Hl & _ & Hlk & Hs & _ & Hsz'); [lia|done|].
      exists (pushed k v (evicted (key kv) l c)), (length (elems c)).
      split; [exact Hs|]. split; [lia|]. simpl.
      assert (l = []) as ->.
      { rewrite Hl, length_app in Hsz. simpl in Hsz.
        apply length_zero_iff_nil. lia. }
      assert (delete (key kv) (cache c) = ∅) as ->.
      { apply map_size_empty_inv.
        rewrite map_size_delete_Some by done. lia. }
      by rewrite insert_empty, list_lookup_middle.
Qed.

(** C2 (amended): a capacity that is zero or negative is accepted by
    [NewCache]; no sequence of calls on such a cache panics, its size is
    never above 1, and every [Set(k, v)] leaves it with exactly the one
    entry just set: [Len()] is 1, the recency list and the index hold
    the one element of [k] with the value [v] and nothing else, [Get(k)]
    finds [v], and [Get] of every other key misses. *)
Theorem nonpositive_capacity_holds_one (n : Z) os k v :
  min_int <= n <= 0 →
  ∃ c c' e, exec os (NewCache n) = Some c ∧ 0 <= curr_size c <= 1 ∧
    Set_ k v c = Some (tt, c') ∧ Len c' = Some (1, c') ∧
    lru c' = [e] ∧ cache c' = {[k := e]} ∧
    elems c' !! e = Some (mkItem k v) ∧
    entries c' = [mkItem k v] ∧
    Get k c' = Some ((v, true), c') ∧
    ∀ k', k' ≠ k → Get k' c' = Some ((nil, false), c').
Proof.
  intros Hn.
  assert (is_int n) as Hint by (unfold is_int, min_int, max_int in *; lia).
  destruct (exec_inv os (NewCache n) (inv_NewCache n Hint))
    as (c & He & Hc & Hm). simpl in Hm.
  pose proof (inv_bound c Hc) as Hbd.
  pose proof (inv_size_nonneg c Hc) as Hnn.
  destruct (Set_nonpositive c k v Hc) as (c' & e & Hs & Hsz' & Hl & Hca & Hel);
    [lia|].
  exists c, c', e. split; [done|]. split; [lia|]. split; [done|].
  split; [unfold Len, gets; by rewrite Hsz'|].
  split; [done|]. split; [done|]. split; [done|]. split; [|split].
  - unfold entries. rewrite Hl. simpl. by rewrite Hel.
  - assert (cache c' !! k = Some e) as Hk by (rewrite Hca; apply lookup_singleton_eq).
    rewrite (Get_present c' k e _ Hk Hel). simpl.
    unfold set_lru, List_.MoveToFront. rewrite Hl.
    rewrite decide_True by (by left). rewrite decide_True by done.
    rewrite <- Hl. by destruct c'.
  - intros k' Hne. apply Get_absent. rewrite Hca.
    by apply lookup_singleton_ne.
Qed.

(** C3 (amended): in every state reached by a cache whose capacity is at
    least 1, [Set] of a key that is not present does the following.
    When the size equals the capacity, exactly one entry is evicted, the
    one at the back of the recency order; the new entry is put at the
    front and the size is as before.  When the size differs from the
    capacity, nothing is evicted; the new entry is put at the front and
    the size grows by one. *)
Theorem Set_new_key_evicts_back (n : Z) os c k v :
  1 <= n <= max_int →
  exec os (NewCache n) = Some c →
  cache c !! k = None →
  let new := length (elems c) in
  (curr_size c = max_size c →
     ∃ l b kv, lru c = l ++ [b] ∧ elems c !! b = Some kv ∧
       cache c !! key kv = Some b ∧
       Set_ k v c =
         Some (tt, mkCache (max_size c) (curr_size c)
                     (<[k := new]> (delete (key kv) (cache c)))
                     (new :: l)
                     (elems c ++ [mkItem k v]))) ∧
  (curr_size c ≠ max_size c →
     Set_ k v c =
       Some (tt, mkCache (max_size c) (curr_size c + 1)
                   (<[k := new]> (cache c))
                   (new :: lru c)
                   (elems c ++ [mkItem k v]))).
Proof.
  intros Hn He Hk new.
  assert (is_int n) as Hint by (unfold is_int, min_int, max_int in *; lia).
  destruct (reach_inv n os c Hint He) as [Hc Hm].
  pose proof (inv_bound c Hc) as Hbd.
  pose proof (inv_size_nonneg c Hc) as Hnn.
  split.
  - intros Hfull.
    destruct (Set_absent_evict c k v Hc Hk)
      as (l & b & kv & Hl & Hkv & Hlk & Hs & _ & Hsz); [lia..|].
    exists l, b, kv. split; [done|]. split; [done|]. split; [done|].
    rewrite Hs. unfold pushed in *. simpl in *. by rewrite Hsz.
  - intros Hnf.
    destruct (Set_absent_push c k v Hc Hk) as (Hs & _ & Hsz); [lia|].
    rewrite Hs. unfold pushed in *. simpl in *. by rewrite Hsz.
Qed.

(** C4: in every reachable state, [Set] of a key that is present
    replaces the value held by that key's element, moves the element to
    the front of the recency order, evicts nothing (the index and the
    set of elements in the order are as before) and leaves [Len()]
    unchanged. *)
Theorem Set_existing_key_updates (n : Z) os c k e v :
  is_int n →
  exec os (NewCache n) = Some c →
  cache c !! k = Some e →
  ∃ old c', elems c !! e = Some (mkItem k old) ∧
    Set_ k v c = Some (tt, c') ∧
    elems c' = <[e := mkItem k v]> (elems c) ∧
    elems c' !! e = Some (mkItem k v) ∧
    lru c' = e :: filter (λ x, x ≠ e) (lru c) ∧
    lru c' ≡ₚ lru c ∧
    cache c' = cache c ∧
    fst <$> Len c' = fst <$> Len c.
Proof.
  intros Hint He Hk. destruct (reach_inv n os c Hint He) as [Hc Hm].
  destruct (Set_present_inv c k v e Hc Hk) as (kv & Hkv & Hkey & Hs & _).
  destruct (inv_key c k e Hc Hk) as [Hin _].
  pose proof (inv_nodup c Hc) as Hnd.
  exists (val kv). eexists. split.
  { rewrite Hkv. destruct kv. simpl in *. by subst. }
  split; [exact Hs|]. simpl. split; [done|]. split.
  { apply list_lookup_insert_eq. by eapply lookup_lt_Some. }
  split; [done|]. split; [|done].
  rewrite <- MoveToFront_in by done. by apply MoveToFront_perm.
Qed.

(** C5: in every reachable state, [Get] of a key that is present moves
    its element to the front of the recency order and returns the value
    it holds with [true]; [Get] of a key that is absent returns [nil]
    with [false]. *)
Theorem Get_hit_and_miss (n : Z) os c k :
  is_int n →
  exec os (NewCache n) = Some c →
  match cache c !! k with
  | Some e =>
      ∃ value, elems c !! e = Some (mkItem k value) ∧
        Get k c =
          Some ((value, true),
                mkCache (max_size c) (curr_size c) (cache c)
                  (e :: filter (λ x, x ≠ e) (lru c)) (elems c))
  | None => ∃ c', Get k c = Some ((nil, false), c')
  end.
Proof.
  intros Hint He. destruct (reach_inv n os c Hint He) as [Hc Hm].
  destruct (cache c !! k) as [e|] eqn:Hk.
  - destruct (Get_present_inv c k e Hc Hk) as (kv & Hkv & Hkey & Hg & _).
    exists (val kv). split; [|exact Hg].
    rewrite Hkv. destruct kv. simpl in *. by subst.
  - exists c. by apply Get_absent.
Qed.

(** C6: in every state, any number of [Get] calls on a key that is
    absent leaves the whole cache as it was: index, recency order and
    size. *)
Theorem Get_miss_changes_nothing c k (i : nat) :
  cache c !! k = None →
  Get k c = Some ((nil, false), c) ∧
  exec (replicate i (OGet k)) c = Some c.
Proof.
  intros Hk. split; [by apply Get_absent|].
  induction i as [|i IH]; [done|]. simpl.
  rewrite (exec_cons _ _ _ c); [done|].
  simpl. unfold mbind, M_bind. by rewrite Get_absent.
Qed.

(** C7: in every state, [Clear] leaves an empty cache: [Len()] is 0,
    the index and the recency order have no entries, and [Get] of any
    key returns [false]. *)
Theorem Clear_empties c :
  ∃ c', Clear c = Some (tt, c') ∧
    Len c' = Some (0, c') ∧ cache c' = ∅ ∧ lru c' = [] ∧
    ∀ k, Get k c' = Some ((nil, false), c').
Proof.
  eexists. split; [apply Clear_spec|]. split; [done|].
  split; [done|]. split; [done|].
  intros k. apply Get_absent. simpl. apply lookup_empty.
Qed.

(** C8: on a new cache of capacity 2, [Set(a,1); Set(b,2); Get(a);
    Set(c,3)] evicts [b] and keeps [a]: afterwards [Get(b)] misses while
    [Get(a)] and [Get(c)] hit.  The [Get(a)] is the reason: without it
    the same calls evict [a] and keep [b]. *)
Theorem Get_refreshes_recency (v1 v2 v3 : iface V) :
  fst <$> (Set_ "a" v1;; Set_ "b" v2;; Get "a";; Set_ "c" v3;;
           a ← Get "a"; b ← Get "b"; c ← Get "c"; mret (a, b, c))
            (NewCache 2)
    = Some ((v1, true), (nil, false), (v3, true)) ∧
  fst <$> (Set_ "a" v1;; Set_ "b" v2;; Set_ "c" v3;;
           a ← Get "a"; b ← Get "b"; c ← Get "c"; mret (a, b, c))
            (NewCache 2)
    = Some ((nil, false), (v2, true), (v3, true)).
Proof. split; vm_compute; reflexivity. Qed.

(** C9: from every reachable state, each public call ([Set], [Get],
    [Len], [Clear]) returns and leaves a state in which the index is a
    bijection between the keys in the cache and the elements of the
    recency list: the index sends a key to an element exactly when that
    element is in the list and holds that key, the key set of the index
    is the key set of the list, and the number of index entries and the
    length of the list both equal the stored size. *)
Theorem calls_keep_index_bijection (n : Z) os c o :
  is_int n →
  exec os (NewCache n) = Some c →
  ∃ c', step o c = Some (tt, c') ∧ index_bijection c'.
Proof.
  intros Hint He. destruct (reach_inv n os c Hint He) as [Hc _].
  destruct (step_inv c o Hc) as (c' & Hs & Hc' & _).
  exists c'. split; [done|]. by apply inv_bijection.
Qed.

(** C10: for every capacity, zero and negative ones included, every
    sequence of [Set], [Get], [Len] and [Clear] calls returns, and the
    size is never negative; [removeLRU] on a cache of size 0 does
    nothing; and when the capacity is zero or negative the cache never
    holds more than one entry: a [Set] of a new key leaves the new
    entry alone in the cache. *)
Theorem calls_total_size_nonnegative (n : Z) os :
  is_int n →
  ∃ c, exec os (NewCache n) = Some c ∧ 0 <= curr_size c ∧
    (∀ c0 : Cache V, curr_size c0 = 0 → removeLRU c0 = Some (tt, c0)) ∧
    (n <= 0 →
       curr_size c <= 1 ∧ (length (lru c) <= 1)%nat ∧
       (size (cache c) <= 1)%nat ∧
       ∀ k v, cache c !! k = None →
         Set_ k v c =
           Some (tt, mkCache n 1 {[k := length (elems c)]}
                       [length (elems c)] (elems c ++ [mkItem k v]))).
Proof.
  intros Hint.
  destruct (exec_inv os (NewCache n) (inv_NewCache n Hint))
    as (c & He & Hc & Hm). simpl in Hm.
  pose proof (inv_bound c Hc) as Hbd.
  pose proof (inv_size_nonneg c Hc) as Hnn.
  pose proof (inv_size c Hc) as Hsz.
  pose proof (inv_card c Hc) as Hcard.
  exists c. split; [done|]. split; [lia|].
  split; [by apply removeLRU_empty|].
  intros Hle. split; [lia|]. split; [lia|]. split; [lia|].
  intros k v Hk. destruct (decide (curr_size c = 0)) as [Hz|Hnz].
  - destruct (Set_absent_push c k v Hc Hk) as (Hs & _ & Hsz'); [by right|].
    rewrite Hs. unfold pushed in *. simpl in *. rewrite Hsz', Hz, Hm.
    assert (cache c = ∅) as -> by (apply map_size_empty_inv; lia).
    assert (lru c = []) as -> by (apply length_zero_iff_nil; lia).
    by rewrite insert_empty.
  - destruct (Set_absent_evict c k v Hc Hk)
      as (l & b & kv & Hl & _ & Hlk & Hs & _ & Hsz'); [lia|done|].
    rewrite Hs. unfold pushed, evicted in *. simpl in *.
    rewrite Hsz', Hm.
    assert (curr_size c = 1) as -> by lia.
    assert (l = []) as ->.
    { rewrite Hl, length_app in Hsz. simpl in Hsz.
      apply length_zero_iff_nil. lia. }
    assert (delete (key kv) (cache c) = ∅) as ->.
    { apply map_size_empty_inv.
      rewrite map_size_delete_Some by done. lia. }
    by rewrite insert_empty.
Qed.

End Properties.

(** ** Concrete runs *)

Section Runs.

(** C1 as stated fails at capacity 0: one [Set] on a new cache of
    capacity 0 leaves [Len()] at 1. *)
Lemma capacity_zero_Len_exceeds :
  ∃ c len, exec (sets [("a", one)]) (NewCache 0) = Some c ∧
           Len c = Some (len, c) ∧ ¬ len <= 0.
Proof.
  exists demo_one_over, 1. split; [vm_compute; reflexivity|].
  split; [reflexivity|]. lia.
Qed.

(** C1 (amended) at work: capacity 2, the first two of three [Set] calls. *)
Lemma Len_le_capacity_witness :
  1 <= 2 <= max_int ∧
  ∃ c len,
    exec (sets (take 2 [("a", one); ("b", two); ("c", one)])) (NewCache 2)
      = Some c ∧
    Len c = Some (len, c) ∧ len <= 2.
Proof.
  split; [unfold max_int; lia|].
  apply (Len_le_capacity 2 [("a", one); ("b", two); ("c", one)] 2).
  unfold max_int; lia.
Defined.

(** C2 as stated fails at capacity 0: [NewCache(0)] returns a cache, the
    cache stores what is set (it is not disabled), and its size, 1, is
    above the capacity. *)
Lemma capacity_zero_accepted_and_stores :
  ∃ c c', Set_ "a" one (NewCache 0) = Some (tt, c) ∧
          Get "a" c = Some ((one, true), c') ∧
          ¬ curr_size c <= max_size c.
Proof.
  exists demo_one_over, demo_one_over.
  split; [vm_compute; reflexivity|]. split; [vm_compute; reflexivity|].
  simpl. lia.
Qed.

(** C2 (amended) at work on a cache of capacity -3 that holds ["a"]:
    [Set(b,2)] leaves [demo_negative], whose one entry is the one of
    ["b"]; ["a"] is gone. *)
Lemma nonpositive_capacity_holds_one_witness :
  min_int <= -3 <= 0 ∧
  exec [OSet "a" one; OGet "a"; OLen] (NewCache (-3))
    = Some (mkCache (-3) 1 {["a" := 0%nat]} [0%nat] [mkItem "a" one]) ∧
  Set_ "b" two (mkCache (-3) 1 {["a" := 0%nat]} [0%nat] [mkItem "a" one])
    = Some (tt, demo_negative) ∧
  Len demo_negative = Some (1, demo_negative) ∧
  lru demo_negative = [1%nat] ∧
  cache demo_negative = {["b" := 1%nat]} ∧
  entries demo_negative = [mkItem "b" two] ∧
  Get "b" demo_negative = Some ((two, true), demo_negative) ∧
  Get "a" demo_negative = Some ((nil, false), demo_negative).
Proof.
  assert (min_int <= -3 <= 0) as Hn by (unfold min_int; lia).
  split; [exact Hn|].
  destruct (nonpositive_capacity_holds_one (-3)
              [OSet "a" one; OGet "a"; OLen] "b" two Hn)
    as (c & c' & e & He & _ & Hs & Hlen & Hl & Hca & _ & Hes & Hg & Hmiss).
  assert (Some c
          = Some (mkCache (-3) 1 {["a" := 0%nat]} [0%nat] [mkItem "a" one]))
    as Hc by (rewrite <- He; vm_compute; reflexivity).
  injection Hc as ->.
  assert (Some (tt, c') = Some (tt, demo_negative)) as Hc'
    by (rewrite <- Hs; vm_compute; reflexivity).
  injection Hc' as ->.
  assert (e = 1%nat) as -> by (simpl in Hl; congruence).
  split; [exact He|]. split; [exact Hs|]. split; [exact Hlen|].
  split; [exact Hl|]. split; [exact Hca|]. split; [exact Hes|].
  split; [exact Hg|]. apply Hmiss. discriminate.
Defined.

(** C3 as stated fails where the capacity is 0.  On the new cache the
    size equals the capacity and the key is absent, yet [Set] evicts
    nothing (there is nothing to evict) and the size changes from 0 to
    1.  On the state that follows, the size differs from the capacity
    and the key is new, yet [Set] evicts the entry of ["a"]. *)
Lemma capacity_zero_Set_new_key :
  (curr_size (NewCache (V:=Z) 0) = max_size (NewCache (V:=Z) 0) ∧
   cache (NewCache (V:=Z) 0) !! "a" = None ∧
   lru (NewCache (V:=Z) 0) = [] ∧
   ∃ c', Set_ "a" one (NewCache 0) = Some (tt, c') ∧
         curr_size c' ≠ curr_size (NewCache (V:=Z) 0)) ∧
  (curr_size demo_one_over ≠ max_size demo_one_over ∧
   cache demo_one_over !! "b" = None ∧
   is_Some (cache demo_one_over !! "a") ∧
   ∃ c', Set_ "b" two demo_one_over = Some (tt, c') ∧
         cache c' !! "a" = None).
Proof.
  split.
  - split; [reflexivity|]. split; [reflexivity|]. split; [reflexivity|].
    exists demo_one_over. split; [vm_compute; reflexivity|]. simpl. lia.
  - split; [simpl; lia|]. split; [reflexivity|].
    split; [by exists 0%nat|].
    eexists. split; [vm_compute; reflexivity|]. reflexivity.
Qed.

(** C3 at work, once in each case: on the full cache [demo_full] the
    entry of ["a"], at the back, is evicted; on the new cache nothing is. *)
Lemma Set_new_key_evicts_back_witness :
  (1 <= 2 <= max_int ∧
   exec [OSet "a" one; OSet "b" two] (NewCache 2) = Some demo_full ∧
   cache demo_full !! "c" = None ∧
   curr_size demo_full = max_size demo_full ∧
   ∃ l b kv, lru demo_full = l ++ [b] ∧ elems demo_full !! b = Some kv ∧
     cache demo_full !! key kv = Some b ∧
     Set_ "c" one demo_full =
       Some (tt, mkCache (max_size demo_full) (curr_size demo_full)
                   (<["c" := 2%nat]> (delete (key kv) (cache demo_full)))
                   (2%nat :: l)
                   (elems demo_full ++ [mkItem "c" one]))) ∧
  (exec [] (NewCache 2) = Some (NewCache (V:=Z) 2) ∧
   cache (NewCache (V:=Z) 2) !! "c" = None ∧
   curr_size (NewCache (V:=Z) 2) ≠ max_size (NewCache (V:=Z) 2) ∧
   Set_ "c" one (NewCache 2) =
     Some (tt, mkCache 2 (0 + 1) (<["c" := 0%nat]> ∅) [0%nat]
                 ([] ++ [mkItem "c" one]))).
Proof.
  assert (1 <= 2 <= max_int) as Hn by (unfold max_int; lia).
  split.
  - split; [exact Hn|]. split; [vm_compute; reflexivity|].
    split; [reflexivity|]. split; [reflexivity|].
    apply (proj1 (Set_new_key_evicts_back 2 [OSet "a" one; OSet "b" two]
                    demo_full "c" one Hn eq_refl eq_refl)).
    reflexivity.
  - split; [reflexivity|]. split; [reflexivity|].
    split; [simpl; lia|].
    apply (proj2 (Set_new_key_evicts_back 2 [] (NewCache 2) "c" one
                    Hn eq_refl eq_refl)).
    simpl; lia.
Defined.

(** C4 at work: [Set(a,2)] on [demo_full], where ["a"] is at the back. *)
Lemma Set_existing_key_updates_witness :
  is_int 2 ∧
  exec [OSet "a" one; OSet "b" two] (NewCache 2) = Some demo_full ∧
  cache demo_full !! "a" = Some 0%nat ∧
  ∃ old c', elems demo_full !! 0%nat = Some (mkItem "a" old) ∧
    Set_ "a" two demo_full = Some (tt, c') ∧
    elems c' = <[0%nat := mkItem "a" two]> (elems demo_full) ∧
    elems c' !! 0%nat = Some (mkItem "a" two) ∧
    lru c' = 0%nat :: filter (λ x, x ≠ 0%nat) (lru demo_full) ∧
    lru c' ≡ₚ lru demo_full ∧
    cache c' = cache demo_full ∧
    fst <$> Len c' = fst <$> Len demo_full.
Proof.
  split; [unfold is_int, min_int, max_int; lia|].
  split; [vm_compute; reflexivity|]. split; [reflexivity|].
  apply (Set_existing_key_updates 2 [OSet "a" one; OSet "b" two]
           demo_full "a" 0%nat two).
  - unfold is_int, min_int, max_int; lia.
  - vm_compute; reflexivity.
  - reflexivity.
Defined.

(** C5 at work: [Get(a)] on [demo_full]. *)
Lemma Get_hit_and_miss_witness :
  is_int 2 ∧
  exec [OSet "a" one; OSet "b" two] (NewCache 2) = Some demo_full ∧
  match cache demo_full !! "a" with
  | Some e =>
      ∃ value, elems demo_full !! e = Some (mkItem "a" value) ∧
        Get "a" demo_full =
          Some ((value, true),
                mkCache (max_size demo_full) (curr_size demo_full)
                  (cache demo_full)
                  (e :: filter (λ x, x ≠ e) (lru demo_full))
                  (elems demo_full))
  | None => ∃ c', Get "a" demo_full = Some ((nil, false), c')
  end.
Proof.
  split; [unfold is_int, min_int, max_int; lia|].
  split; [vm_compute; reflexivity|].
  apply (Get_hit_and_miss 2 [OSet "a" one; OSet "b" two] demo_full "a").
  - unfold is_int, min_int, max_int; lia.
  - vm_compute; reflexivity.
Defined.

(** C6 at work: three [Get] calls of an absent key on [demo_full]. *)
Lemma Get_miss_changes_nothing_witness :
  cache demo_full !! "zz" = None ∧
  Get "zz" demo_full = Some ((nil, false), demo_full) ∧
  exec (replicate 3 (OGet "zz")) demo_full = Some demo_full.
Proof.
  split; [reflexivity|].
  apply (Get_miss_changes_nothing demo_full "zz" 3). reflexivity.
Defined.

(** C9 at work: an evicting [Set] on [demo_full]. *)
Lemma calls_keep_index_bijection_witness :
  is_int 2 ∧
  exec [OSet "a" one; OSet "b" two] (NewCache 2) = Some demo_full ∧
  ∃ c', step (OSet "c" one) demo_full = Some (tt, c') ∧ index_bijection c'.
Proof.
  split; [unfold is_int, min_int, max_int; lia|].
  split; [vm_compute; reflexivity|].
  apply (calls_keep_index_bijection 2 [OSet "a" one; OSet "b" two]
           demo_full (OSet "c" one)).
  - unfold is_int, min_int, max_int; lia.
  - vm_compute; reflexivity.
Defined.

(** C10 at work on a cache of capacity -3. *)
Lemma calls_total_size_nonnegative_witness :
  is_int (-3) ∧
  exec [OSet "a" one; OGet "a"; OLen; OSet "b" two] (NewCache (-3))
    = Some demo_negative ∧
  0 <= curr_size demo_negative ∧
  removeLRU (NewCache (V:=Z) (-3)) = Some (tt, NewCache (-3)) ∧
  curr_size demo_negative <= 1 ∧
  (length (lru demo_negative) <= 1)%nat ∧
  (size (cache demo_negative) <= 1)%nat ∧
  Set_ "c" one demo_negative =
    Some (tt, mkCache (-3) 1 {["c" := 2%nat]} [2%nat]
                (elems demo_negative ++ [mkItem "c" one])).
Proof.
  assert (is_int (-3)) as Hint by (unfold is_int, min_int, max_int; lia).
  split; [exact Hint|].
  destruct (calls_total_size_nonnegative (-3)
              [OSet "a" one; OGet "a"; OLen; OSet "b" two] Hint)
    as (c & He & Hnn & Hrm & Hcap).
  assert (Some c = Some demo_negative) as Hc
    by (rewrite <- He; vm_compute; reflexivity).
  injection Hc as ->.
  split; [exact He|]. split; [exact Hnn|].
  split; [apply Hrm; reflexivity|].
  destruct Hcap as (H1 & H2 & H3 & Hset); [lia|].
  split; [exact H1|]. split; [exact H2|]. split; [exact H3|].
  apply (Hset "c" one). reflexivity.
Defined.

End Runs.

(** ** The entries of the cache and the reference LRU *)

Section Entries.

Context {V : Type}.
Implicit Types (c : Cache V) (k : string) (v : iface V) (e : ptr).
Implicit Types (s es : list (cacheItem V)) (l : list ptr).
Implicit Types (os : list (op V)) (o : op V).

Lemma omap_lookup_ext s s' l :
  (∀ x, x ∈ l → s' !! x = s !! x) →
  omap (λ x, s' !! x) l = omap (λ x, s !! x) l.
Proof.
  induction l as [|x l IH]; [done|]. intros Hext. simpl.
  rewrite (Hext x) by (by left).
  assert (omap (λ x, s' !! x) l = omap (λ x, s !! x) l) as IH'
    by (apply IH; intros y Hy; apply Hext; by right).
  destruct (s !! x); [f_equal|]; exact IH'.
Qed.

Lemma omap_lookup_filter s (P : ptr → Prop) (Q : cacheItem V → Prop)
    `{!∀ x, Decision (P x)} `{!∀ it, Decision (Q it)} l :
  (∀ x it, x ∈ l → s !! x = Some it → (P x ↔ Q it)) →
  omap (λ x, s !! x) (filter P l) = filter Q (omap (λ x, s !! x) l).
Proof.
  induction l as [|x l IH]; [done|]. intros HPQ.
  assert (omap (λ x, s !! x) (filter P l) = filter Q (omap (λ x, s !! x) l))
    as IH' by (apply IH; intros y it Hy; apply HPQ; by right).
  destruct (s !! x) as [it|] eqn:Hx.
  - pose proof (HPQ x it (list_elem_of_here _ _) Hx) as Hiff.
    destruct (decide (P x)) as [HP|HP].
    + rewrite filter_cons_True by done. simpl. rewrite Hx.
      rewrite filter_cons_True by (by apply Hiff). f_equal. exact IH'.
    + rewrite filter_cons_False by done. simpl. rewrite Hx.
      rewrite filter_cons_False by (by rewrite <- Hiff). exact IH'.
  - destruct (decide (P x)) as [HP|HP].
    + rewrite filter_cons_True by done. simpl. rewrite Hx. exact IH'.
    + rewrite filter_cons_False by done. simpl. rewrite Hx. exact IH'.
Qed.

Lemma filter_eq_NoDup l e :
  NoDup l → e ∈ l → filter (λ x, x = e) l = [e].
Proof.
  induction 1 as [|x l Hx Hnd IH]; [by rewrite elem_of_nil|].
  rewrite elem_of_cons. intros [->|Hin].
  - rewrite filter_cons_True by done. f_equal.
    clear IH Hnd. induction l as [|y l IH]; [done|].
    apply not_elem_of_cons in Hx as [Hne Hx].
    rewrite filter_cons_False by done. by apply IH.
  - rewrite filter_cons_False by (intros ->; done). by apply IH.
Qed.

Lemma filter_False_nil es (Q : cacheItem V → Prop) `{!∀ it, Decision (Q it)} :
  (∀ it, it ∈ es → ¬ Q it) → filter Q es = [].
Proof.
  induction es as [|it es IH]; [done|]. intros HQ.
  rewrite filter_cons_False by (apply HQ; by left).
  apply IH. intros it' Hit'. apply HQ. by right.
Qed.

Lemma entries_length c : inv c → length (entries c) = length (lru c).
Proof.
  intros Hc. pose proof (inv_alloc c Hc) as Hal. unfold entries.
  induction (lru c) as [|x l IH]; [done|].
  assert (length (omap (λ e, elems c !! e) l) = length l) as IH'
    by (apply IH; intros y Hy; apply Hal; by right).
  simpl. destruct (Hal x) as [it ->]; [by left|]. simpl.
  f_equal. exact IH'.
Qed.

Lemma entries_size c : inv c → curr_size c = Z.of_nat (length (entries c)).
Proof. intros Hc. rewrite entries_length by done. apply (inv_size c Hc). Qed.

Lemma elem_of_entries c it :
  it ∈ entries c ↔ ∃ e, e ∈ lru c ∧ elems c !! e = Some it.
Proof. unfold entries. apply list_elem_of_omap. Qed.

(** An entry of the cache is what the index leads to. *)
Lemma entries_index c it :
  inv c →
  it ∈ entries c ↔ ∃ e, cache c !! key it = Some e ∧ elems c !! e = Some it.
Proof.
  intros Hc. rewrite elem_of_entries. split.
  - intros (e & Hin & He). exists e. split; [|done].
    apply (inv_index c Hc). split; [done|]. by rewrite He.
  - intros (e & Hk & He). exists e. split; [|done].
    by apply (inv_index c Hc) in Hk as [? _].
Qed.

Lemma ref_find_present c k e it :
  inv c → cache c !! k = Some e → elems c !! e = Some it →
  ref_find k (entries c) = Some it.
Proof.
  intros Hc Hk He. unfold ref_find, entries.
  rewrite <- (omap_lookup_filter (elems c) (λ x, x = e) (λ it, key it = k)).
  - rewrite filter_eq_NoDup; [simpl; by rewrite He|apply (inv_nodup c Hc)|].
    by apply (inv_index c Hc) in Hk as [? _].
  - intros x it' Hx Hit'. split.
    + intros ->. apply (inv_index c Hc) in Hk as [_ Hkey].
      rewrite Hit' in Hkey. simpl in Hkey. congruence.
    + intros Hkey.
      assert (cache c !! k = Some x) as Hk'.
      { apply (inv_index c Hc). split; [done|]. rewrite Hit'. simpl.
        by rewrite Hkey. }
      congruence.
Qed.

Lemma ref_find_absent c k :
  inv c → cache c !! k = None → ref_find k (entries c) = None.
Proof.
  intros Hc Hk. unfold ref_find. rewrite filter_False_nil; [done|].
  intros it Hit Hkey. apply (entries_index c it Hc) in Hit as (e & Hk' & _).
  rewrite Hkey in Hk'. congruence.
Qed.

(** The entries other than the one of [k], in order. *)
Lemma entries_filter c k e :
  inv c → cache c !! k = Some e →
  omap (λ x, elems c !! x) (filter (λ x, x ≠ e) (lru c))
  = filter (λ it, key it ≠ k) (entries c).
Proof.
  intros Hc Hk. unfold entries. apply omap_lookup_filter.
  intros x it Hx Hit.
  assert (x = e ↔ key it = k) as Hiff; [|by rewrite Hiff].
  split.
  - intros ->. apply (inv_index c Hc) in Hk as [_ Hkey].
    rewrite Hit in Hkey. simpl in Hkey. congruence.
  - intros Hkey.
    assert (cache c !! k = Some x) as Hk'.
    { apply (inv_index c Hc). split; [done|]. rewrite Hit. simpl.
      by rewrite Hkey. }
    congruence.
Qed.

Lemma entries_alloc_app c l it :
  (∀ x, x ∈ l → is_Some (elems c !! x)) →
  omap (λ x, (elems c ++ [it]) !! x) l = omap (λ x, elems c !! x) l.
Proof.
  intros Hal. apply omap_lookup_ext. intros x Hx.
  destruct (Hal x Hx) as [it' Hit']. rewrite Hit'.
  by apply lookup_app_l_Some.
Qed.

Lemma call_OSet c k v c' :
  Set_ k v c = Some (tt, c') → call (OSet k v) c = Some (RUnit, c').
Proof. intros Hs. unfold call, mbind, M_bind. by rewrite Hs. Qed.

Lemma call_OGet c k r c' :
  Get k c = Some (r, c') → call (OGet k) c = Some (RGet r.1 r.2, c').
Proof. intros Hg. unfold call, mbind, M_bind. by rewrite Hg. Qed.

(** Each call, seen on the entries, is a call of the reference LRU. *)
Lemma call_refines c o :
  inv c →
  ∃ c', call o c = Some ((ref_call (max_size c) o (entries c)).1, c') ∧
        inv c' ∧ max_size c' = max_size c ∧
        entries c' = (ref_call (max_size c) o (entries c)).2.
Proof.
  intros Hc. destruct o as [k v|k| |].
  - (* Set *)
    destruct (cache c !! k) as [e|] eqn:Hk.
    + destruct (Set_present_inv c k v e Hc Hk) as (kv & Hkv & Hkey & Hs & Hi).
      eexists. split; [apply call_OSet, Hs|]. split; [exact Hi|].
      split; [done|]. simpl.
      rewrite (ref_find_present c k e kv Hc Hk Hkv).
      unfold entries at 1. simpl.
      rewrite list_lookup_insert_eq by (by eapply lookup_lt_Some). f_equal.
      rewrite <- (entries_filter c k e Hc Hk).
      apply omap_lookup_ext. intros x Hx.
      apply list_elem_of_filter in Hx as [Hne _].
      by rewrite list_lookup_insert_ne.
    + pose proof (entries_size c Hc) as Hsz.
      destruct (decide (curr_size c < max_size c ∨ curr_size c = 0))
        as [Hcase|Hcase].
      * destruct (Set_absent_push c k v Hc Hk Hcase) as (Hs & Hi & _).
        eexists. split; [apply call_OSet, Hs|]. split; [exact Hi|].
        split; [done|]. simpl. rewrite (ref_find_absent c k Hc Hk).
        unfold entries at 1. simpl. rewrite list_lookup_middle by done.
        rewrite entries_alloc_app by apply (inv_alloc c Hc).
        fold (entries c). f_equal. case_decide as Hge; [|done].
        assert (entries c = []) as -> by (apply length_zero_iff_nil; lia).
        done.
      * destruct (Set_absent_evict c k v Hc Hk)
          as (l & b & kv & Hl & Hkv & _ & Hs & Hi & _); [lia..|].
        eexists. split; [apply call_OSet, Hs|]. split; [exact Hi|].
        split; [done|]. simpl. rewrite (ref_find_absent c k Hc Hk).
        unfold entries at 1. simpl. rewrite list_lookup_middle by done.
        rewrite decide_True by lia. f_equal.
        rewrite entries_alloc_app.
        -- unfold entries. rewrite Hl, omap_app. simpl. rewrite Hkv.
           by rewrite removelast_last.
        -- intros x Hx. apply (inv_alloc c Hc). rewrite Hl.
           apply elem_of_app. by left.
  - (* Get *)
    destruct (cache c !! k) as [e|] eqn:Hk.
    + destruct (Get_present_inv c k e Hc Hk) as (kv & Hkv & Hkey & Hg & Hi).
      eexists. split.
      { rewrite (call_OGet _ _ _ _ Hg). simpl.
        by rewrite (ref_find_present c k e kv Hc Hk Hkv). }
      split; [exact Hi|]. split; [done|]. simpl.
      rewrite (ref_find_present c k e kv Hc Hk Hkv). simpl.
      unfold entries at 1. simpl. rewrite Hkv. f_equal.
      by apply entries_filter.
    + exists c. split.
      { rewrite (call_OGet _ _ _ _ (Get_absent c k Hk)). simpl.
        by rewrite (ref_find_absent c k Hc Hk). }
      simpl. by rewrite (ref_find_absent c k Hc Hk).
  - (* Len *)
    exists c. simpl. split; [|done].
    unfold mbind, M_bind, Len, gets. by rewrite (entries_size c Hc).
  - (* Clear *)
    exists (mkCache (max_size c) 0 ∅ [] (elems c)).
    split; [done|]. split; [by apply inv_Clear|done].
Qed.

Lemma call_step c o : snd <$> call o c = snd <$> step o c.
Proof.
  destruct o as [k v|k| |]; simpl; unfold mbind, M_bind.
  - by destruct (Set_ k v c) as [[[] ?]|].
  - by destruct (Get k c) as [[? ?]|].
  - done.
  - done.
Qed.

Lemma calls_exec os : ∀ c, snd <$> calls os c = exec os c.
Proof.
  induction os as [|o os IH]; intros c; [done|].
  unfold exec in *. simpl. unfold mbind, M_bind.
  pose proof (call_step c o) as Hcs.
  destruct (call o c) as [[r c1]|], (step o c) as [[[] c2]|];
    simpl in Hcs; simplify_eq; [|done].
  rewrite <- IH. by destruct (calls os c2) as [[? ?]|].
Qed.

Lemma calls_refines os : ∀ c,
  inv c →
  ∃ c', calls os c = Some ((ref_calls (max_size c) os (entries c)).1, c') ∧
        inv c' ∧ max_size c' = max_size c ∧
        entries c' = (ref_calls (max_size c) os (entries c)).2.
Proof.
  induction os as [|o os IH]; intros c Hc; [by exists c|].
  destruct (call_refines c o Hc) as (c1 & Hcall & Hc1 & Hm1 & He1).
  destruct (IH c1 Hc1) as (c' & Hcalls & Hc' & Hm' & He').
  rewrite Hm1, He1 in Hcalls, He'.
  exists c'. simpl. unfold mbind, M_bind. rewrite Hcall, Hcalls.
  destruct (ref_call (max_size c) o (entries c)) as [r es1]. simpl in *.
  destruct (ref_calls (max_size c) os es1) as [rs es2]. simpl in *.
  split; [done|]. split; [done|]. split; [congruence|done].
Qed.

End Entries.

(** ** Further properties of the cache *)

Section MoreProperties.

Context {V : Type}.
Implicit Types (c : Cache V) (k : string) (v : iface V) (e : ptr).
Implicit Types (es : list (cacheItem V)) (it : cacheItem V).
Implicit Types (os : list (op V)) (o : op V).

Lemma exec_app os1 : ∀ os2 c,
  exec (os1 ++ os2) c = exec os1 c ≫= exec os2.
Proof.
  induction os1 as [|o os1 IH]; intros os2 c; [done|].
  unfold exec in *. simpl. unfold mbind at 1 3, M_bind.
  destruct (step o c) as [[[] c1]|]; [|done]. apply IH.
Qed.

Lemma ref_find_Some k es it :
  ref_find k es = Some it → it ∈ es ∧ key it = k.
Proof.
  unfold ref_find. intros Hh. apply head_Some_elem_of in Hh.
  by apply list_elem_of_filter in Hh as [? ?].
Qed.

Lemma elem_of_removelast es it : it ∈ removelast es → it ∈ es.
Proof.
  destruct es as [|x es _] using rev_ind; [done|].
  rewrite removelast_last, elem_of_app. by left.
Qed.

(** [Get] finds [v] under [k] exactly when the entry is in the cache. *)
Lemma Get_found_iff c k v :
  inv c → fst <$> Get k c = Some (v, true) ↔ mkItem k v ∈ entries c.
Proof.
  intros Hc. rewrite (entries_index c _ Hc). simpl. split.
  - destruct (cache c !! k) as [e|] eqn:Hk.
    + destruct (Get_present_inv c k e Hc Hk) as (kv & Hkv & Hkey & Hg & _).
      rewrite Hg. simpl. intros [= <-]. exists e. split; [done|].
      rewrite Hkv. destruct kv. simpl in *. by subst.
    + by rewrite (Get_absent c k Hk).
  - intros (e & Hk & He).
    destruct (Get_present_inv c k e Hc Hk) as (kv & Hkv & _ & Hg & _).
    rewrite Hg. rewrite He in Hkv. by simplify_eq.
Qed.

Lemma Get_missed_iff c k :
  inv c → fst <$> Get k c = Some (nil, false) ↔ k ∉ key <$> entries c.
Proof.
  intros Hc. destruct (cache c !! k) as [e|] eqn:Hk.
  - destruct (Get_present_inv c k e Hc Hk) as (kv & Hkv & Hkey & Hg & _).
    rewrite Hg. simpl. split; [done|]. intros Hnin. exfalso. apply Hnin.
    apply list_elem_of_fmap. exists kv. split; [done|].
    apply (entries_index c kv Hc). exists e. by rewrite Hkey.
  - rewrite (Get_absent c k Hk). simpl. split; [|done]. intros _ Hin.
    apply list_elem_of_fmap in Hin as (it & -> & Hit).
    apply (entries_index c it Hc) in Hit as (e & Hk' & _). congruence.
Qed.

(** After [Set(k, v)] the element of [k] is at the front and holds [v]. *)
Lemma Set_post c k v :
  inv c →
  ∃ c' e l, Set_ k v c = Some (tt, c') ∧ inv c' ∧
    max_size c' = max_size c ∧
    lru c' = e :: l ∧ cache c' !! k = Some e ∧
    elems c' !! e = Some (mkItem k v).
Proof.
  intros Hc. destruct (cache c !! k) as [e|] eqn:Hk.
  - destruct (Set_present_inv c k v e Hc Hk) as (kv & Hkv & _ & Hs & Hi).
    eexists _, e, _. split; [exact Hs|]. split; [exact Hi|]. simpl.
    split; [done|]. split; [done|]. split; [done|].
    apply list_lookup_insert_eq. by eapply lookup_lt_Some.
  - destruct (decide (curr_size c < max_size c ∨ curr_size c = 0))
      as [Hcase|Hcase].
    + destruct (Set_absent_push c k v Hc Hk Hcase) as (Hs & Hi & _).
      eexists _, _, _. split; [exact Hs|]. split; [exact Hi|]. simpl.
      split; [done|]. split; [done|].
      by rewrite lookup_insert_eq, list_lookup_middle.
    + destruct (Set_absent_evict c k v Hc Hk)
        as (l & b & kv & _ & _ & _ & Hs & Hi & _); [lia..|].
      eexists _, _, _. split; [exact Hs|]. split; [exact Hi|]. simpl.
      split; [done|]. split; [done|].
      by rewrite lookup_insert_eq, list_lookup_middle.
Qed.

(** A call on the key at the front does not move anything. *)
Lemma Get_front c k e l it :
  lru c = e :: l → cache c !! k = Some e → elems c !! e = Some it →
  Get k c = Some ((val it, true), c).
Proof.
  intros Hl Hk He. rewrite (Get_present c k e it Hk He).
  unfold set_lru, List_.MoveToFront. rewrite Hl.
  rewrite decide_True by (by left). rewrite decide_True by done.
  rewrite <- Hl. by destruct c.
Qed.

Lemma Set_front c k v e l :
  lru c = e :: l → cache c !! k = Some e →
  elems c !! e = Some (mkItem k v) →
  Set_ k v c = Some (tt, c).
Proof.
  intros Hl Hk He. rewrite (Set_present c k v e _ Hk He).
  unfold List_.MoveToFront. rewrite Hl.
  rewrite decide_True by (by left). rewrite decide_True by done.
  simpl. rewrite list_insert_id by done. rewrite <- Hl. by destruct c.
Qed.

(** X1: in every reachable state, [Set(k, v)] returns, and the [Get(k)]
    that follows returns [v] with [true] and changes nothing. *)
Theorem Set_then_Get (n : Z) os c k v :
  is_int n →
  exec os (NewCache n) = Some c →
  ∃ c', Set_ k v c = Some (tt, c') ∧ Get k c' = Some ((v, true), c').
Proof.
  intros Hint He. destruct (reach_inv n os c Hint He) as [Hc _].
  destruct (Set_post c k v Hc) as (c' & e & l & Hs & _ & _ & Hl & Hk & Hv).
  exists c'. split; [done|]. apply (Get_front c' k e l _ Hl Hk Hv).
Qed.

(** X2: in every reachable state, [Set(k, v)] twice in a row leaves the
    same state as [Set(k, v)] once. *)
Theorem Set_twice_same (n : Z) os c k v :
  is_int n →
  exec os (NewCache n) = Some c →
  exec [OSet k v; OSet k v] c = exec [OSet k v] c ∧
  is_Some (exec [OSet k v] c).
Proof.
  intros Hint He. destruct (reach_inv n os c Hint He) as [Hc _].
  destruct (Set_post c k v Hc) as (c' & e & l & Hs & _ & _ & Hl & Hk & Hv).
  pose proof (Set_front c' k v e l Hl Hk Hv) as Hs'.
  rewrite (exec_cons (OSet k v) [OSet k v] c c') by done.
  rewrite (exec_cons (OSet k v) [] c' c') by done.
  rewrite (exec_cons (OSet k v) [] c c') by done.
  split; [done|]. by eexists.
Qed.

Lemma call_OSet_inv c k v r c' :
  call (OSet k v) c = Some (r, c') → Set_ k v c = Some (tt, c').
Proof.
  unfold call, mbind, M_bind.
  destruct (Set_ k v c) as [[[] c1]|]; [|done]. simpl. by intros [= _ ->].
Qed.

(** An entry of another key that is there after [Set(k, v)] was there
    before. *)
Lemma Set_other_entries c k v c' it :
  inv c → Set_ k v c = Some (tt, c') → key it ≠ k →
  it ∈ entries c' → it ∈ entries c.
Proof.
  intros Hc Hs Hne.
  destruct (call_refines c (OSet k v) Hc) as (c1 & Hcall & _ & _ & Hes).
  apply call_OSet_inv in Hcall. rewrite Hs in Hcall. simplify_eq.
  rewrite Hes. simpl. destruct (ref_find k (entries c)) as [it0|].
  - rewrite elem_of_cons, list_elem_of_filter.
    intros [->|[_ ?]]; [by destruct Hne|done].
  - rewrite elem_of_cons. intros [->|Hin]; [by destruct Hne|].
    case_decide; [by apply elem_of_removelast|done].
Qed.

(** X3: in every reachable state, [Set(k, v)] never gives another key a
    value: when a later [Get] of a key other than [k] finds a value, the
    same [Get] before the [Set] found that very value. *)
Theorem Set_keeps_other_values (n : Z) os c k v k' :
  is_int n →
  exec os (NewCache n) = Some c →
  k' ≠ k →
  ∃ c', Set_ k v c = Some (tt, c') ∧
    ∀ v', fst <$> Get k' c' = Some (v', true) →
          fst <$> Get k' c = Some (v', true).
Proof.
  intros Hint He Hne. destruct (reach_inv n os c Hint He) as [Hc _].
  destruct (Set_inv c k v Hc) as (c' & Hs & Hc' & _).
  exists c'. split; [done|]. intros v'.
  rewrite (Get_found_iff c' k' v' Hc'), (Get_found_iff c k' v' Hc).
  by apply (Set_other_entries c k v c').
Qed.

(** X4: with a capacity of at least 2, the key just used is not the next
    one to go: after [Set(k, v)], or after a [Get(k)] that found a value,
    one more [Set] of any key leaves [k] in the cache. *)
Theorem most_recent_key_survives (n : Z) os c k v c1 k' v' :
  2 <= n <= max_int →
  exec os (NewCache n) = Some c →
  Set_ k v c = Some (tt, c1) ∨ Get k c = Some ((v, true), c1) →
  ∃ c2 w c3, Set_ k' v' c1 = Some (tt, c2) ∧
             Get k c2 = Some ((w, true), c3).
Proof.
  intros Hn He Htouch.
  assert (is_int n) as Hint by (unfold is_int, min_int, max_int in *; lia).
  destruct (reach_inv n os c Hint He) as [Hc Hm].
  assert (inv c1 ∧ max_size c1 = n ∧
          ∃ it rest, entries c1 = it :: rest ∧ key it = k)
    as (Hc1 & Hm1 & it & rest & Hes1 & Hkey).
  { destruct Htouch as [Hs|Hg].
    - destruct (call_refines c (OSet k v) Hc) as (c' & Hcall & ? & ? & Hes).
      rewrite (call_OSet c k v c1 Hs) in Hcall. simplify_eq.
      split; [done|]. split; [congruence|]. simpl in Hes.
      destruct (ref_find k (entries c)); eauto.
    - destruct (call_refines c (OGet k) Hc) as (c' & Hcall & ? & ? & Hes).
      rewrite (call_OGet c k _ c1 Hg) in Hcall. simpl in Hcall, Hes.
      destruct (ref_find k (entries c)) as [it|] eqn:Hf;
        simpl in *; simplify_eq.
      split; [done|]. split; [congruence|].
      apply ref_find_Some in Hf as [_ Hkey]. eauto. }
  destruct (call_refines c1 (OSet k' v') Hc1) as (c2 & Hcall & Hc2 & _ & Hes2).
  assert (Set_ k' v' c1 = Some (tt, c2)) as Hs2.
  { revert Hcall. unfold call, mbind, M_bind.
    destruct (Set_ k' v' c1) as [[[] c']|]; [|done]. simpl. by intros [= ->]. }
  assert (∃ it', it' ∈ entries c2 ∧ key it' = k) as (it' & Hin & Hkey').
  { rewrite Hes2, Hes1. simpl.
    destruct (ref_find k' (it :: rest)) as [it0|] eqn:Hf.
    - destruct (decide (k = k')) as [->|Hne].
      + exists (mkItem k' v'). split; [by left|done].
      + exists it. split; [|done]. right.
        apply list_elem_of_filter. split; [congruence|by left].
    - exists it. split; [|done]. right. case_decide as Hge; [|by left].
      pose proof (entries_size c1 Hc1) as Hsz. rewrite Hes1 in Hsz.
      destruct rest as [|it2 rest]; [simpl in Hge; lia|]. by left. }
  assert (fst <$> Get k c2 = Some (val it', true)) as Hfound.
  { apply (Get_found_iff c2 k (val it') Hc2).
    destruct it'. simpl in *. by subst. }
  destruct (Get k c2) as [[[w b] c3]|] eqn:Hg; [|done].
  simpl in Hfound. simplify_eq. by eexists c2, _, c3.
Qed.

Lemma calls_cons o os c c1 r rs c2 :
  call o c = Some (r, c1) → calls os c1 = Some (rs, c2) →
  calls (o :: os) c = Some (r :: rs, c2).
Proof.
  intros Hcall Hcalls. simpl. unfold mbind, M_bind.
  by rewrite Hcall, Hcalls.
Qed.

(** X5: for every capacity and every sequence of [Set], [Get], [Len] and
    [Clear] calls on a new cache, [Len()] is between 0 and the larger of
    the capacity and 1; so with a capacity of at least 1 it is never above
    the capacity, whatever the calls are. *)
Theorem Len_bounded_any_calls (n : Z) os :
  is_int n →
  ∃ c len, exec os (NewCache n) = Some c ∧ Len c = Some (len, c) ∧
           0 <= len <= Z.max n 1.
Proof.
  intros Hint.
  destruct (exec_inv os (NewCache n) (inv_NewCache n Hint))
    as (c & He & Hc & Hm). simpl in Hm.
  exists c, (curr_size c). split; [done|]. split; [done|].
  pose proof (inv_bound c Hc). pose proof (inv_size_nonneg c Hc). lia.
Qed.

(** X6: the cache behaves as the reference LRU on plain lists: for every
    capacity and every sequence of calls on a new cache, no call panics,
    the calls return what the reference returns from the empty list, and
    the entries of the cache, front to back, are the reference's list. *)
Theorem cache_refines_reference (n : Z) os :
  is_int n →
  ∃ c, calls os (NewCache n) = Some ((ref_calls n os []).1, c) ∧
       entries c = (ref_calls n os []).2.
Proof.
  intros Hint.
  destruct (calls_refines os (NewCache n) (inv_NewCache n Hint))
    as (c & Hcalls & _ & _ & Hes).
  by exists c.
Qed.

(** X7: after [Clear] a cache answers every sequence of calls as a new
    cache of the same capacity does. *)
Theorem Clear_like_new (n : Z) os c os' :
  is_int n →
  exec os (NewCache n) = Some c →
  fst <$> calls (OClear :: os') c
  = (λ rs, RUnit :: rs) <$> (fst <$> calls os' (NewCache n)) ∧
  is_Some (calls (OClear :: os') c).
Proof.
  intros Hint He. destruct (reach_inv n os c Hint He) as [Hc Hm].
  destruct (calls_refines os' (NewCache n) (inv_NewCache n Hint))
    as (c1 & Hnew & _ & _ & _).
  destruct (calls_refines os' (mkCache (max_size c) 0 ∅ [] (elems c))
              (inv_Clear c Hc)) as (c2 & Hclr & _ & _ & _).
  simpl in Hnew, Hclr. rewrite Hm in Hclr.
  change (entries (mkCache n 0 ∅ [] (elems c))) with (@Datatypes.nil (cacheItem V)) in Hclr.
  change (entries (NewCache n)) with (@Datatypes.nil (cacheItem V)) in Hnew.
  assert (calls (OClear :: os') c
          = Some (RUnit :: (ref_calls n os' []).1, c2)) as Hall.
  { apply (calls_cons OClear os' c (mkCache n 0 ∅ [] (elems c))); [|done].
    by rewrite <- Hm. }
  rewrite Hall, Hnew. split; [done|]. by eexists.
Qed.

(** *** Distinct keys on a new cache *)

Lemma ref_calls_app (cap : Z) os1 : ∀ os2 es,
  (ref_calls cap (os1 ++ os2) es).2
  = (ref_calls cap os2 (ref_calls cap os1 es).2).2.
Proof.
  induction os1 as [|o os1 IH]; intros os2 es; [done|]. simpl.
  destruct (ref_call cap o es) as [r es1].
  specialize (IH os2 es1).
  destruct (ref_calls cap (os1 ++ os2) es1) as [rs es2].
  by destruct (ref_calls cap os1 es1) as [rs' es2'].
Qed.

Lemma ref_find_None k es :
  (∀ it, it ∈ es → key it ≠ k) → ref_find k es = None.
Proof. intros Hk. unfold ref_find. by rewrite filter_False_nil. Qed.

Lemma ref_sets_distinct (N : nat) (kvs : list (string * iface V)) :
  NoDup kvs.*1 →
  (ref_calls (Z.of_nat (S N)) (sets kvs) []).2
  = take (S N) (reverse (item_of <$> kvs)).
Proof.
  induction kvs as [|[k v] kvs IH] using rev_ind; intros Hnd; [done|].
  rewrite fmap_app in Hnd. apply NoDup_app in Hnd as (Hnd & Hk & _).
  unfold sets. rewrite fmap_app. fold (sets kvs).
  rewrite ref_calls_app, (IH Hnd). clear IH.
  rewrite fmap_app, reverse_app. simpl.
  set (r := reverse (item_of <$> kvs)).
  rewrite ref_find_None.
  - unfold item_of. simpl. f_equal.
    rewrite length_take. case_decide as Hge.
    + apply removelast_firstn. lia.
    + rewrite !take_ge by lia. done.
  - intros it Hit <-. apply elem_of_take in Hit as (i & Hit & _).
    apply list_elem_of_lookup_2 in Hit. unfold r in Hit.
    rewrite elem_of_reverse in Hit.
    apply list_elem_of_fmap in Hit as ([k' v'] & -> & Hin).
    apply (Hk k'); [|by left].
    apply list_elem_of_fmap. by exists (k', v').
Qed.

(** X9: on a new cache of capacity [n], at least 1, after [Set] calls with
    distinct keys the cache holds the last [n] of them, the latest first:
    [Get] finds each of those with its value, and misses every other key
    (the earlier ones were evicted, oldest first). *)
Theorem new_cache_keeps_last_keys (n : Z) (kvs : list (string * iface V)) :
  1 <= n <= max_int →
  NoDup kvs.*1 →
  let kept := drop (length kvs - Z.to_nat n) kvs in
  ∃ c, exec (sets kvs) (NewCache n) = Some c ∧
    entries c = reverse (item_of <$> kept) ∧
    (∀ k v, (k, v) ∈ kept → fst <$> Get k c = Some (v, true)) ∧
    (∀ k, k ∉ kept.*1 → fst <$> Get k c = Some (nil, false)).
Proof.
  intros Hn Hnd kept.
  assert (is_int n) as Hint by (unfold is_int, min_int, max_int in *; lia).
  destruct (calls_refines (sets kvs) (NewCache n) (inv_NewCache n Hint))
    as (c & Hcalls & Hc & _ & Hes).
  simpl in Hes.
  change (entries (NewCache n)) with (@Datatypes.nil (cacheItem V)) in Hes.
  assert (n = Z.of_nat (S (Z.to_nat n - 1))) as Hn' by lia.
  rewrite Hn' in Hes at 1. rewrite (ref_sets_distinct _ kvs Hnd) in Hes.
  replace (S (Z.to_nat n - 1)) with (Z.to_nat n) in Hes by lia.
  rewrite take_reverse, length_fmap, <- fmap_drop in Hes.
  fold kept in Hes.
  exists c. split; [|split; [done|split]].
  - rewrite <- calls_exec. by rewrite Hcalls.
  - intros k v Hin. apply (Get_found_iff c k v Hc). rewrite Hes.
    rewrite elem_of_reverse. apply list_elem_of_fmap. by exists (k, v).
  - intros k Hnin. apply (Get_missed_iff c k Hc). rewrite Hes.
    intros Hin. apply Hnin.
    apply list_elem_of_fmap in Hin as (it & -> & Hit).
    rewrite elem_of_reverse in Hit.
    apply list_elem_of_fmap in Hit as (kv & -> & Hkv).
    apply list_elem_of_fmap. by exists kv.
Qed.

(** *** The size after [Set] calls *)

Lemma sets_keys_inv (n : Z) (kvs : list (string * iface V)) :
  1 <= n <= max_int →
  ∃ c, exec (sets kvs) (NewCache n) = Some c ∧ inv c ∧ max_size c = n ∧
    dom (cache c) ⊆ list_to_set (C:=gset string) kvs.*1 ∧
    (curr_size c < n → dom (cache c) = list_to_set (C:=gset string) kvs.*1).
Proof.
  intros Hn.
  assert (is_int n) as Hint by (unfold is_int, min_int, max_int in *; lia).
  induction kvs as [|[k v] kvs IH] using rev_ind.
  { exists (NewCache n). split; [done|]. split; [by apply inv_NewCache|].
    split; [done|]. simpl. by rewrite dom_empty_L. }
  destruct IH as (c & He & Hc & Hm & Hsub & Heq).
  unfold sets. rewrite !fmap_app, list_to_set_app_L. fold (sets kvs).
  rewrite exec_app, He. simpl. rewrite (right_id_L ∅ (∪) {[k]}).
  pose proof (inv_bound c Hc) as Hbd. pose proof (inv_size_nonneg c Hc) as Hnn.
  destruct (cache c !! k) as [e|] eqn:Hk.
  - destruct (Set_present_inv c k v e Hc Hk) as (kv & _ & _ & Hs & Hi).
    eexists. rewrite (exec_cons (OSet k v) [] c _ Hs). split; [done|].
    split; [exact Hi|]. split; [done|]. simpl.
    assert (k ∈ dom (cache c)) as Hin by (apply elem_of_dom; eauto).
    split; [by apply union_subseteq_l'|]. intros Hlt.
    rewrite (Heq Hlt) in Hin |- *.
    rewrite (comm_L (∪)). symmetry. apply subseteq_union_1_L.
    by apply singleton_subseteq_l.
  - destruct (decide (curr_size c < max_size c ∨ curr_size c = 0))
      as [Hcase|Hcase].
    + destruct (Set_absent_push c k v Hc Hk Hcase) as (Hs & Hi & Hsz).
      exists (pushed k v c).
      rewrite (exec_cons (OSet k v) [] c _ Hs). split; [done|].
      split; [exact Hi|]. split; [done|].
      assert (dom (cache (pushed k v c))
              = list_to_set (C:=gset string) kvs.*1 ∪ {[k]}) as Hdom.
      { simpl. rewrite dom_insert_L, Heq by lia. apply (comm_L (∪)). }
      by rewrite Hdom.
    + destruct (Set_absent_evict c k v Hc Hk)
        as (l & b & kv & _ & _ & _ & Hs & Hi & Hsz); [lia..|].
      exists (pushed k v (evicted (key kv) l c)).
      rewrite (exec_cons (OSet k v) [] c _ Hs). split; [done|].
      split; [exact Hi|]. split; [done|]. split.
      * simpl. rewrite dom_insert_L, dom_delete_L, (comm_L (∪)).
        by apply union_mono_r, subseteq_difference_l.
      * intros Hlt. exfalso. rewrite Hsz in Hlt. lia.
Qed.

(** X10: on a new cache of capacity [n], at least 1, after any sequence of
    [Set] calls [Len()] is the number of distinct keys set, or [n] when
    that number is larger. *)
Theorem Len_min_distinct_keys (n : Z) (kvs : list (string * iface V)) :
  1 <= n <= max_int →
  ∃ c, exec (sets kvs) (NewCache n) = Some c ∧
    Len c =
      Some (Z.min n (Z.of_nat (size (list_to_set (C:=gset string) kvs.*1))),
            c).
Proof.
  intros Hn. destruct (sets_keys_inv n kvs Hn) as (c & He & Hc & Hm & Hsub & Heq).
  exists c. split; [done|]. unfold Len, gets. do 2 f_equal.
  pose proof (inv_bound c Hc) as Hbd.
  pose proof (inv_size c Hc) as Hsz. rewrite <- (inv_card c Hc) in Hsz.
  rewrite <- size_dom in Hsz.
  destruct (decide (curr_size c < n)) as [Hlt|Hge].
  - rewrite <- (Heq Hlt). lia.
  - apply subseteq_size in Hsub. lia.
Qed.

(** *** The value a key holds *)

Lemma written_app k os1 : ∀ os2 acc,
  written k (os1 ++ os2) acc = written k os2 (written k os1 acc).
Proof.
  induction os1 as [|o os1 IH]; intros os2 acc; [done|].
  destruct o; simpl; apply IH.
Qed.

Lemma entries_key_inj c it1 it2 :
  inv c → it1 ∈ entries c → it2 ∈ entries c → key it1 = key it2 → it1 = it2.
Proof.
  intros Hc H1 H2 Hkey.
  apply (entries_index c it1 Hc) in H1 as (e1 & Hk1 & He1).
  apply (entries_index c it2 Hc) in H2 as (e2 & Hk2 & He2).
  rewrite Hkey in Hk1. congruence.
Qed.

Lemma Get_same_contents c k r c' :
  Get k c = Some (r, c') → cache c' = cache c ∧ elems c' = elems c.
Proof.
  unfold Get, mbind, M_bind, gets. simpl.
  destruct (cache c !! k) as [e|]; simpl; [|by intros [= _ <-]].
  unfold deref, mbind, M_bind, gets. simpl.
  destruct (elems c !! e); simpl; [|done]. by intros [= _ <-].
Qed.

Lemma step_written c o c' k :
  inv c → step o c = Some (tt, c') → inv c' →
  ∀ acc, (∀ v, mkItem k v ∈ entries c → acc = Some v) →
         ∀ v, mkItem k v ∈ entries c' → written k [o] acc = Some v.
Proof.
  intros Hc Hs Hc' acc Hacc v Hin. destruct o as [k' v'|k'| |]; simpl in *.
  - case_decide as Hk; [subst k'|].
    + destruct (Set_post c k v' Hc) as (c1 & e & l & Hs1 & _ & _ & _ & Hk1 & He1).
      assert (c1 = c') as -> by congruence.
      assert (mkItem k v' ∈ entries c') as Hin'.
      { apply (entries_index c' _ Hc'). by exists e. }
      by pose proof (entries_key_inj c' _ _ Hc' Hin Hin' eq_refl) as [= ->].
    + apply Hacc. apply (Set_other_entries c k' v' c'); [done..| |done].
      simpl. congruence.
  - unfold mbind, M_bind in Hs.
    destruct (Get k' c) as [[r c1]|] eqn:Hg; [|done].
    assert (c1 = c') as -> by (by injection Hs).
    destruct (Get_same_contents c k' r c' Hg) as [Hca Hel].
    apply Hacc. apply (entries_index c _ Hc).
    apply (entries_index c' _ Hc') in Hin. by rewrite Hca, Hel in Hin.
  - change (Some (tt, c) = Some (tt, c')) in Hs.
    assert (c = c') as <- by congruence. by apply Hacc.
  - change (Some (tt, mkCache (max_size c) 0 ∅ [] (elems c))
            = Some (tt, c')) in Hs.
    assert (mkCache (max_size c) 0 ∅ [] (elems c) = c') as <- by congruence.
    by apply elem_of_nil in Hin.
Qed.

Lemma exec_written k os : ∀ c c' acc,
  inv c → exec os c = Some c' →
  (∀ v, mkItem k v ∈ entries c → acc = Some v) →
  ∀ v, mkItem k v ∈ entries c' → written k os acc = Some v.
Proof.
  induction os as [|o os IH]; intros c c' acc Hc He Hacc v Hin.
  - unfold exec in He. simpl in He. simplify_eq. by apply Hacc.
  - destruct (step_inv c o Hc) as (c1 & Hs & Hc1 & _).
    rewrite (exec_cons _ _ _ _ Hs) in He.
    change (o :: os) with ([o] ++ os). rewrite written_app.
    apply (IH c1 c' _ Hc1 He); [|done].
    by apply (step_written c o c1 k).
Qed.

(** X11: a [Get] never returns a stale value: in every reachable state,
    when [Get(k)] finds a value, that value is the one of the latest
    [Set(k, _)] among the calls made, and no [Clear] came after it. *)
Theorem Get_returns_latest_Set (n : Z) os c k v :
  is_int n →
  exec os (NewCache n) = Some c →
  fst <$> Get k c = Some (v, true) →
  written k os None = Some v.
Proof.
  intros Hint He Hg. destruct (reach_inv n os c Hint He) as [Hc _].
  apply (Get_found_iff c k v Hc) in Hg.
  apply (exec_written k os (NewCache n) c None (inv_NewCache n Hint) He);
    [|done].
  intros v' Hin. by apply elem_of_nil in Hin.
Qed.

End MoreProperties.

(** ** The run of [main] *)

(** X8: [main] does not panic and writes four lines: the age is found,
    the fourth [Set] has evicted ["name"], the size is 3 before [Clear]
    and 0 after. *)
Theorem main_output :
  main = Some ["Age: 30"; "Name was evicted"; "Cache size: 3";
               "Cache size after clear: 0"].
Proof. vm_compute. reflexivity. Qed.

(** ** More concrete runs *)

Section MoreRuns.

(** X1 at work: [Set(c,1)] on [demo_full], then [Get(c)]. *)
Lemma Set_then_Get_witness :
  is_int 2 ∧
  exec [OSet "a" one; OSet "b" two] (NewCache 2) = Some demo_full ∧
  ∃ c', Set_ "c" one demo_full = Some (tt, c') ∧
        Get "c" c' = Some ((one, true), c').
Proof.
  split; [unfold is_int, min_int, max_int; lia|].
  split; [vm_compute; reflexivity|].
  apply (Set_then_Get 2 [OSet "a" one; OSet "b" two] demo_full "c" one).
  - unfold is_int, min_int, max_int; lia.
  - vm_compute; reflexivity.
Defined.

(** X2 at work: [Set(c,1)] twice on [demo_full]. *)
Lemma Set_twice_same_witness :
  is_int 2 ∧
  exec [OSet "a" one; OSet "b" two] (NewCache 2) = Some demo_full ∧
  exec [OSet "c" one; OSet "c" one] demo_full
  = exec [OSet "c" one] demo_full ∧
  is_Some (exec [OSet "c" one] demo_full).
Proof.
  split; [unfold is_int, min_int, max_int; lia|].
  split; [vm_compute; reflexivity|].
  apply (Set_twice_same 2 [OSet "a" one; OSet "b" two] demo_full "c" one).
  - unfold is_int, min_int, max_int; lia.
  - vm_compute; reflexivity.
Defined.

(** X3 at work: [Set(c,1)] on [demo_full], seen from the key ["b"]. *)
Lemma Set_keeps_other_values_witness :
  is_int 2 ∧
  exec [OSet "a" one; OSet "b" two] (NewCache 2) = Some demo_full ∧
  "b" ≠ "c" ∧
  ∃ c', Set_ "c" one demo_full = Some (tt, c') ∧
    ∀ v', fst <$> Get "b" c' = Some (v', true) →
          fst <$> Get "b" demo_full = Some (v', true).
Proof.
  split; [unfold is_int, min_int, max_int; lia|].
  split; [vm_compute; reflexivity|]. split; [discriminate|].
  apply (Set_keeps_other_values 2 [OSet "a" one; OSet "b" two]
           demo_full "c" one "b").
  - unfold is_int, min_int, max_int; lia.
  - vm_compute; reflexivity.
  - discriminate.
Defined.

(** X4 at work: [Get(a)] on [demo_full], where ["a"] is at the back, then
    [Set(c,2)]. *)
Lemma most_recent_key_survives_witness :
  2 <= 2 <= max_int ∧
  exec [OSet "a" one; OSet "b" two] (NewCache 2) = Some demo_full ∧
  Get "a" demo_full
  = Some ((one, true), set_lru (λ _, [0%nat; 1%nat]) demo_full) ∧
  ∃ c2 w c3,
    Set_ "c" two (set_lru (λ _, [0%nat; 1%nat]) demo_full) = Some (tt, c2) ∧
    Get "a" c2 = Some ((w, true), c3).
Proof.
  split; [unfold max_int; lia|].
  split; [vm_compute; reflexivity|]. split; [vm_compute; reflexivity|].
  apply (most_recent_key_survives 2 [OSet "a" one; OSet "b" two]
           demo_full "a" one _ "c" two).
  - unfold max_int; lia.
  - vm_compute; reflexivity.
  - right. vm_compute; reflexivity.
Defined.

(** X5 at work on a cache of capacity 2. *)
Lemma Len_bounded_any_calls_witness :
  is_int 2 ∧
  ∃ c len,
    exec [OSet "a" one; OGet "a"; OSet "b" two; OClear; OSet "c" one; OLen]
      (NewCache 2) = Some c ∧
    Len c = Some (len, c) ∧ 0 <= len <= Z.max 2 1.
Proof.
  split; [unfold is_int, min_int, max_int; lia|].
  apply (Len_bounded_any_calls 2).
  unfold is_int, min_int, max_int; lia.
Defined.

(** X6 at work on a cache of capacity 2. *)
Lemma cache_refines_reference_witness :
  is_int 2 ∧
  ∃ c,
    calls [OSet "a" one; OSet "b" two; OGet "a"; OSet "c" one; OGet "b"]
      (NewCache 2)
    = Some ((ref_calls 2 [OSet "a" one; OSet "b" two; OGet "a";
                          OSet "c" one; OGet "b"] []).1, c) ∧
    entries c = (ref_calls 2 [OSet "a" one; OSet "b" two; OGet "a";
                              OSet "c" one; OGet "b"] []).2.
Proof.
  split; [unfold is_int, min_int, max_int; lia|].
  apply (cache_refines_reference 2).
  unfold is_int, min_int, max_int; lia.
Defined.

(** X7 at work: [Clear] on [demo_full], then three calls. *)
Lemma Clear_like_new_witness :
  is_int 2 ∧
  exec [OSet "a" one; OSet "b" two] (NewCache 2) = Some demo_full ∧
  fst <$> calls (OClear :: [OSet "a" two; OGet "a"; OLen]) demo_full
  = (λ rs, RUnit :: rs)
      <$> (fst <$> calls [OSet "a" two; OGet "a"; OLen] (NewCache 2)) ∧
  is_Some (calls (OClear :: [OSet "a" two; OGet "a"; OLen]) demo_full).
Proof.
  split; [unfold is_int, min_int, max_int; lia|].
  split; [vm_compute; reflexivity|].
  apply (Clear_like_new 2 [OSet "a" one; OSet "b" two] demo_full).
  - unfold is_int, min_int, max_int; lia.
  - vm_compute; reflexivity.
Defined.

(** X9 at work: three distinct keys on a cache of capacity 2. *)
Lemma new_cache_keeps_last_keys_witness :
  1 <= 2 <= max_int ∧
  NoDup [("a", one); ("b", two); ("c", one)].*1 ∧
  let kept := drop (3 - Z.to_nat 2) [("a", one); ("b", two); ("c", one)] in
  ∃ c, exec (sets [("a", one); ("b", two); ("c", one)]) (NewCache 2) = Some c ∧
    entries c = reverse (item_of <$> kept) ∧
    (∀ k v, (k, v) ∈ kept → fst <$> Get k c = Some (v, true)) ∧
    (∀ k, k ∉ kept.*1 → fst <$> Get k c = Some (nil, false)).
Proof.
  assert (NoDup [("a", one); ("b", two); ("c", one)].*1) as Hnd
    by (apply (bool_decide_unpack _); vm_compute; exact I).
  split; [unfold max_int; lia|]. split; [exact Hnd|].
  apply (new_cache_keeps_last_keys 2 [("a", one); ("b", two); ("c", one)]).
  - unfold max_int; lia.
  - exact Hnd.
Defined.

(** X10 at work: four [Set] calls with three distinct keys on a cache of
    capacity 2. *)
Lemma Len_min_distinct_keys_witness :
  1 <= 2 <= max_int ∧
  ∃ c, exec (sets [("a", one); ("b", two); ("a", two); ("c", one)])
         (NewCache 2) = Some c ∧
    Len c =
      Some (Z.min 2 (Z.of_nat (size (list_to_set (C:=gset string)
              [("a", one); ("b", two); ("a", two); ("c", one)].*1))), c).
Proof.
  split; [unfold max_int; lia|].
  apply (Len_min_distinct_keys 2
           [("a", one); ("b", two); ("a", two); ("c", one)]).
  unfold max_int; lia.
Defined.

(** X11 at work: [Get(a)] on [demo_full] finds the value of the one
    [Set(a, _)] made. *)
Lemma Get_returns_latest_Set_witness :
  is_int 2 ∧
  exec [OSet "a" one; OSet "b" two] (NewCache 2) = Some demo_full ∧
  fst <$> Get "a" demo_full = Some (one, true) ∧
  written "a" [OSet "a" one; OSet "b" two] None = Some one.
Proof.
  split; [unfold is_int, min_int, max_int; lia|].
  split; [vm_compute; reflexivity|]. split; [vm_compute; reflexivity|].
  apply (Get_returns_latest_Set 2 [OSet "a" one; OSet "b" two]
           demo_full "a" one).
  - unfold is_int, min_int, max_int; lia.
  - vm_compute; reflexivity.
  - vm_compute; reflexivity.
Defined.

End MoreRuns.
